(** * clint.arguments: the [Args] CLI argument wrapper

    A shallow embedding of [src/clint/arguments.py].  Python lists are
    mutable heap objects, so the store of list objects is explicit and an
    [Args] instance is a record holding a reference into it.  Exceptions
    are modelled by a small error monad; [try ... except E] is [try_except].
    Read-only methods are functions of the current contents of [self.all];
    the constructor, [copy], [pop], [remove] and direct mutation of
    [_args] are store transformers. *)

From Stdlib Require Import ZArith String List Bool Lia.
From stdpp Require Import base option list gmap strings.

Local Open Scope string_scope.
Local Open Scope list_scope.
Local Open Scope Z_scope.

(** ** Python prelude: exceptions, strings and list primitives *)

Module Py.

Inductive exn : Set := IndexError | ValueError | TypeError | KeyError.

Definition exn_eqb (a b : exn) : bool :=
  match a, b with
  | IndexError, IndexError | ValueError, ValueError
  | TypeError, TypeError | KeyError, KeyError => true
  | _, _ => false
  end.

Inductive result (A : Type) : Type :=
| Ok (a : A)
| Raise (e : exn).
Arguments Ok {A} a.
Arguments Raise {A} e.

Definition bind {A B} (m : result A) (k : A -> result B) : result B :=
  match m with
  | Ok a => k a
  | Raise e => Raise e
  end.

(** [try: body except e: handler]: only the named exception is caught. *)
Definition try_except {A} (body : result A) (e : exn) (handler : result A)
  : result A :=
  match body with
  | Ok a => Ok a
  | Raise e' => if exn_eqb e' e then handler else Raise e'
  end.

(** [x in arg] on two strings: [x] occurs as a substring of [arg]. *)
Fixpoint str_in (x arg : string) : bool :=
  String.prefix x arg ||
  match arg with
  | EmptyString => false
  | String _ rest => str_in x rest
  end.

(** [arg.startswith(x)] for a string [x]. *)
Definition startswith (arg x : string) : bool := String.prefix x arg.

(** Truth value of a string: non-empty. *)
Definition str_truthy (s : string) : bool :=
  match s with
  | EmptyString => false
  | String _ _ => true
  end.

(** [bool(v)] where [v] is [None] or an int: [None] and [0] are false. *)
Definition index_truthy (v : option nat) : bool :=
  match v with
  | Some (S _) => true
  | Some O | None => false
  end.

(** [l[i]] for an int [i]: negative indices count from the end;
    [IndexError] outside [-len(l) <= i < len(l)]. *)
Definition getitem (l : list string) (i : Z) : result string :=
  let n := Z.of_nat (length l) in
  let j := if i <? 0 then i + n else i in
  if (0 <=? j) && (j <? n) then
    match l !! Z.to_nat j with
    | Some v => Ok v
    | None => Raise IndexError
    end
  else Raise IndexError.

(** [l[v]] where [v] is [None] or an int: subscripting a list by [None]
    raises [TypeError]. *)
Definition subscript (l : list string) (v : option nat) : result string :=
  match v with
  | None => Raise TypeError
  | Some i => getitem l (Z.of_nat i)
  end.

(** [l.index(x)]: index of the first element equal to [x], [ValueError]
    when there is none. *)
Fixpoint index (l : list string) (x : string) : result nat :=
  match l with
  | [] => Raise ValueError
  | y :: l' =>
      if String.eqb y x then Ok O
      else bind (index l' x) (fun i => Ok (S i))
  end.

(** [l.pop(i)]: removes and returns the element at [i] (negative indices
    count from the end); [IndexError] when out of range.  The second
    component is the list after the removal. *)
Definition pop (l : list string) (i : Z) : result (string * list string) :=
  let n := Z.of_nat (length l) in
  let j := if i <? 0 then i + n else i in
  if (0 <=? j) && (j <? n) then
    match l !! Z.to_nat j with
    | Some v => Ok (v, delete (Z.to_nat j) l)
    | None => Raise IndexError
    end
  else Raise IndexError.

(** [l[1:]] *)
Definition slice_from_1 (l : list string) : list string := tail l.

End Py.

Import Py.

Notation "'let!' x ':=' m 'in' k" := (Py.bind m (fun x => k))
  (at level 10, x name, m at level 100, k at level 200).

(** ** Arguments of the "string or list of strings" parameters *)

(** Modelled from the spec: [is_collection] lives in [clint.utils], which
    is not part of the sources at hand.  Section 9 of the specification
    describes the parameter as either a single string or an explicit
    sequence of strings; [is_collection] tells the two apart. *)
Inductive query : Type :=
| Str (s : string)
| Coll (xs : list string).

Definition is_collection (x : query) : bool :=
  match x with
  | Str _ => false
  | Coll _ => true
  end.

(** ** Read-only methods, as functions of the contents of [self.all] *)

Module Seq.

Section Methods.

Variable all : list string.

(** [Args.__len__] *)
Definition __len__ : nat := length all.

(** [Args.__getitem__] *)
Definition __getitem__ (i : Z) : result (option string) :=
  try_except (let! v := getitem all i in Ok (Some v)) IndexError (Ok None).

(** [Args.get] *)
Definition get (x : Z) : result (option string) :=
  try_except (let! v := getitem all x in Ok (Some v)) IndexError (Ok None).

(** The inner [_find] of [Args.first]; [str(x)] of a string is the string. *)
Definition first_find (x : string) : result (option nat) :=
  try_except (let! i := index all x in Ok (Some i)) ValueError (Ok None).

(** The candidate loop of [Args.first]: [if found is not None]. *)
Fixpoint first_loop (xs : list string) : result (option nat) :=
  match xs with
  | [] => Ok None
  | item :: xs' =>
      let! found := first_find item in
      match found with
      | Some i => Ok (Some i)
      | None => first_loop xs'
      end
  end.

(** [Args.first] *)
Definition first (x : query) : result (option nat) :=
  match x with
  | Coll xs => first_loop xs
  | Str s => first_find s
  end.

(** [Args.__contains__]: [self.first(x) is not None] *)
Definition __contains__ (x : query) : result bool :=
  let! found := first x in Ok (bool_decide (found <> None)).

(** [Args.contains] *)
Definition contains (x : query) : result bool := __contains__ x.

(** The [for arg in self.all] loop inside [_find] of [Args.first_with]:
    the first [arg] with [x in arg] returns [self.all.index(arg)];
    falling off the loop returns [None]. *)
Fixpoint first_with_scan (rest : list string) (x : string)
  : result (option nat) :=
  match rest with
  | [] => Ok None
  | arg :: rest' =>
      if str_in x arg then let! i := index all arg in Ok (Some i)
      else first_with_scan rest' x
  end.

(** The inner [_find] of [Args.first_with]. *)
Definition first_with_find (x : string) : result (option nat) :=
  try_except (first_with_scan all x) ValueError (Ok None).

(** The candidate loop of [Args.first_with]: [if found] tests the truth
    value of the index. *)
Fixpoint first_with_loop (xs : list string) : result (option nat) :=
  match xs with
  | [] => Ok None
  | item :: xs' =>
      let! found := first_with_find item in
      if index_truthy found then Ok found else first_with_loop xs'
  end.

(** [Args.first_with] *)
Definition first_with (x : query) : result (option nat) :=
  match x with
  | Coll xs => first_with_loop xs
  | Str s => first_with_find s
  end.

(** [Args.get_with]: [self.all[self.first_with(x)]], unguarded. *)
Definition get_with (x : query) : result string :=
  let! found := first_with x in subscript all found.

(** [Args.any_contain]: [bool(self.first_with(x))] *)
Definition any_contain (x : query) : result bool :=
  let! found := first_with x in Ok (index_truthy found).

(** The body of [Args.start_with] for one [arg]: whether it is appended.
    In the collection branch the inner loop tests [arg.startswith(x)]
    with the whole list [x], which [str.startswith] rejects with
    [TypeError] as soon as the loop body runs once. *)
Definition start_with_keeps (x : query) (arg : string) : result bool :=
  match x with
  | Coll [] => Ok false
  | Coll (_ :: _) => Raise TypeError
  | Str s => Ok (startswith arg s)
  end.

(** The body of [Args.all_without] for one [arg]: appended when some
    candidate is not contained in it ([break] after the first). *)
Definition all_without_keeps (x : query) (arg : string) : bool :=
  match x with
  | Coll xs => existsb (fun _x => negb (str_in _x arg)) xs
  | Str s => negb (str_in s arg)
  end.

(** The accumulation loop of [Args.start_with] over [self.all]. *)
Fixpoint start_with_loop (x : query) (rest _args : list string)
  : result (list string) :=
  match rest with
  | [] => Ok _args
  | arg :: rest' =>
      let! keep := start_with_keeps x arg in
      start_with_loop x rest' (if keep then _args ++ [arg] else _args)
  end.

(** The accumulation loop of [Args.all_without] over [self.all]. *)
Fixpoint all_without_loop (x : query) (rest _args : list string)
  : list string :=
  match rest with
  | [] => _args
  | arg :: rest' =>
      all_without_loop x rest'
        (if all_without_keeps x arg then _args ++ [arg] else _args)
  end.

(** The sequence [Args.start_with] hands to [Args(_args, no_argv=True)]. *)
Definition start_with (x : query) : result (list string) :=
  start_with_loop x all [].

(** The sequence [Args.all_without] hands to [Args(_args, no_argv=True)]. *)
Definition all_without (x : query) : list string :=
  all_without_loop x all [].

(** [Args.flags] *)
Definition flags : result (list string) := start_with (Str "-").

(** [Args.not_flags] *)
Definition not_flags : list string := all_without (Str "-").

(** The effect of [Args.pop] on the contents, with its return value. *)
Definition pop_items (x : Z) : result (option string * list string) :=
  try_except (let! r := pop all x in Ok (Some (fst r), snd r))
             IndexError (Ok (None, all)).

(** The [for arg in self.all] loop inside [_find] of
    [Args.first_without]: the first [arg] with [x not in arg] returns
    [self.all.index(arg)]. *)
Fixpoint first_without_scan (rest : list string) (x : string)
  : result (option nat) :=
  match rest with
  | [] => Ok None
  | arg :: rest' =>
      if negb (str_in x arg) then let! i := index all arg in Ok (Some i)
      else first_without_scan rest' x
  end.

(** The inner [_find] of [Args.first_without]. *)
Definition first_without_find (x : string) : result (option nat) :=
  try_except (first_without_scan all x) ValueError (Ok None).

(** The candidate loop of [Args.first_without]: [if found]. *)
Fixpoint first_without_loop (xs : list string) : result (option nat) :=
  match xs with
  | [] => Ok None
  | item :: xs' =>
      let! found := first_without_find item in
      if index_truthy found then Ok found else first_without_loop xs'
  end.

(** [Args.first_without] *)
Definition first_without (x : query) : result (option nat) :=
  match x with
  | Coll xs => first_without_loop xs
  | Str s => first_without_find s
  end.

(** [Args.contains_at]: the result is a boolean, or [None] when the
    candidate loop runs zero times and the function falls off its end.
    The loop returns in its first iteration, on either branch. *)
Definition contains_at (x : query) (index : Z) : result (option bool) :=
  try_except
    match x with
    | Coll [] => Ok None
    | Coll (_x :: _) =>
        let! a := getitem all index in
        if str_in _x a then Ok (Some true)
        else
          let! b := getitem all index in
          if String.eqb _x b then Ok (Some true) else Ok (Some false)
    | Str s => let! a := getitem all index in Ok (Some (str_in s a))
    end
    IndexError (Ok (Some false)).

(** [Args.has] *)
Definition has (x : Z) : result bool :=
  try_except (let! _v := getitem all x in Ok true) IndexError (Ok false).

(** [self.all.index(x)] in [Args.value_after], where [x] is passed as it
    is: a list object equals none of the stored strings. *)
Definition index_of_query (x : query) : result nat :=
  match x with
  | Str s => index all s
  | Coll _ => Raise ValueError
  end.

(** [Args.value_after]: the inner [except ValueError] returns [None] from
    the method, the outer [except IndexError] guards the subscript. *)
Definition value_after (x : query) : result (option string) :=
  try_except
    match index_of_query x with
    | Ok i => let! v := getitem all (Z.of_nat i + 1) in Ok (Some v)
    | Raise ValueError => Ok None
    | Raise e => Raise e
    end
    IndexError (Ok None).

(** [Args.last] *)
Definition last : result (option string) :=
  try_except (let! v := getitem all (-1) in Ok (Some v)) IndexError (Ok None).

(** The body of [Args.all_with] for one [arg]: appended when some
    candidate is contained in it ([break] after the first). *)
Definition all_with_keeps (x : query) (arg : string) : bool :=
  match x with
  | Coll xs => existsb (fun _x => str_in _x arg) xs
  | Str s => str_in s arg
  end.

(** The accumulation loop of [Args.all_with] over [self.all]. *)
Fixpoint all_with_loop (x : query) (rest _args : list string)
  : list string :=
  match rest with
  | [] => _args
  | arg :: rest' =>
      all_with_loop x rest'
        (if all_with_keeps x arg then _args ++ [arg] else _args)
  end.

(** The sequence [Args.all_with] hands to [Args(_args, no_argv=True)]. *)
Definition all_with (x : query) : list string :=
  all_with_loop x all [].

End Methods.

(** The inner [_remove] of [Args.remove], on the contents [cur]:
    [found = self.first(x)], then [self._args.pop(found)] unless [found]
    is [None]. *)
Definition _remove (cur : list string) (x : query) : result (list string) :=
  let! found := first cur x in
  match found with
  | Some i => let! r := pop cur (Z.of_nat i) in Ok (snd r)
  | None => Ok cur
  end.

(** [Args.remove], on the contents: in the collection branch every
    iteration calls [_remove(x)] with the whole collection [x]. *)
Definition remove (cur : list string) (x : query) : result (list string) :=
  match x with
  | Coll xs =>
      fold_left (fun acc _item => let! c := acc in _remove c x) xs (Ok cur)
  | Str _ => _remove cur x
  end.

(** [Args.files] and [Args.not_files] consult the file system through
    [expand_path] of [clint.utils] and [os.path]; neither is part of the
    sources at hand, so they are parameters, read against one unchanging
    file system. *)
Section Files.

Variable all : list string.

(** Modelled from the spec: [expand_path] expands shell-style glob and
    home patterns of one token into the list of matching paths. *)
Variable expand_path : string -> list string.

(** [os.path.exists] *)
Variable path_exists : string -> bool.

(** [os.path.abspath] *)
Variable abspath : string -> string.






End Files.

End Seq.

(** ** [Args.grouped] over an ordered dictionary *)

Module Grouped.

(** [OrderedDict] from flag strings to argument groups, in insertion
    order.  Every value is a fresh [Args(no_argv=True)], whose [_args] is a
    list of its own; the entry records the contents of that list. *)
Definition odict : Type := list (string * list string).

Definition od_keys (d : odict) : list string := map fst d.

Fixpoint od_get (d : odict) (k : string) : option (list string) :=
  match d with
  | [] => None
  | (k', v) :: d' => if String.eqb k' k then Some v else od_get d' k
  end.

(** [d.setdefault(k, v)]: inserts at the end unless [k] is present. *)
Definition od_setdefault (d : odict) (k : string) (v : list string) : odict :=
  match od_get d k with
  | Some _ => d
  | None => d ++ [(k, v)]
  end.

(** [d[k]._args.append(arg)]: [KeyError] when [k] is missing. *)
Fixpoint od_append (d : odict) (k arg : string) : result odict :=
  match d with
  | [] => Raise KeyError
  | (k', v) :: d' =>
      if String.eqb k' k then Ok ((k', v ++ [arg]) :: d')
      else let! r := od_append d' k arg in Ok ((k', v) :: r)
  end.

(** The [for arg in self.all] loop of [Args.grouped]; [_current_group] is
    [None] or a string, and [if _current_group] tests its truth value. *)
Fixpoint grouped_loop (rest : list string) (collection : odict)
    (_current_group : option string) : result odict :=
  match rest with
  | [] => Ok collection
  | arg :: rest' =>
      if startswith arg "-" then
        grouped_loop rest' (od_setdefault collection arg []) (Some arg)
      else
        let! c :=
          match _current_group with
          | Some g =>
              if str_truthy g then od_append collection g arg
              else od_append collection "_" arg
          | None => od_append collection "_" arg
          end in
        grouped_loop rest' c _current_group
  end.

(** [Args.grouped] *)
Definition grouped (all : list string) : result odict :=
  grouped_loop all [("_", [])] None.

(** The state of the loop of [grouped] is sound when the sentinel key and
    the current group are keys of the collection. *)
Definition loop_state_ok (d : odict) (cur : option string) : Prop :=
  is_Some (od_get d "_") /\
  forall g, cur = Some g -> is_Some (od_get d g).

(** The specification's "first-seen order": the distinct elements of [l]
    not already in [seen], each at its first occurrence. *)
Fixpoint first_seen (seen l : list string) : list string :=
  match l with
  | [] => []
  | a :: l' =>
      if existsb (String.eqb a) seen then first_seen seen l'
      else a :: first_seen (seen ++ [a]) l'
  end.

End Grouped.

(** ** [Args] objects in a store of list objects *)

Module Clint.

Definition loc : Set := positive.

(** The store: the list objects allocated so far and the next free
    reference. *)
Record store : Type := {
  cells : gmap loc (list string);
  next : loc
}.

Definition empty_store : store := {| cells := ∅; next := 1%positive |}.

(** A new list object. *)
Definition alloc (l : list string) (h : store) : loc * store :=
  (next h, {| cells := <[next h := l]> (cells h); next := Pos.succ (next h) |}).

Definition deref (h : store) (r : loc) : list string :=
  default [] (cells h !! r).

(** In-place update of the list object at [r]. *)
Definition assign (r : loc) (l : list string) (h : store) : store :=
  {| cells := <[r := l]> (cells h); next := next h |}.

(** [r.append(x)] on the list object at [r]. *)
Definition list_append (r : loc) (x : string) (h : store) : store :=
  assign r (deref h r ++ [x]) h.

(** An instance of the class: its only attribute is the reference
    [_args], set once by the constructor. *)
Record Args : Set := { _args : loc }.

Section WithArgv.

(** [sys.argv] of the process. *)
Variable argv : list string.

(** [Args.__init__(self, args=None, no_argv=False)]; [not args] holds for
    [None] and for an empty list. *)
Definition __init__ (args : option loc) (no_argv : bool) (h : store)
  : Args * store :=
  let from_env :=
    if negb no_argv then
      let (r, h') := alloc (slice_from_1 argv) h in ({| _args := r |}, h')
    else
      let (r, h') := alloc [] h in ({| _args := r |}, h') in
  match args with
  | None => from_env
  | Some a =>
      match deref h a with
      | [] => from_env
      | _ :: _ => ({| _args := a |}, h)
      end
  end.

(** [Args.all]: the list object itself. *)
Definition all_ref (self : Args) : loc := _args self.

(** The current contents of [self.all]. *)
Definition all (self : Args) (h : store) : list string :=
  deref h (all_ref self).

(** [Args.__len__] *)
Definition __len__ (self : Args) (h : store) : nat :=
  Seq.__len__ (all self h).

(** [Args.get] *)
Definition get (self : Args) (x : Z) (h : store) : result (option string) :=
  Seq.get (all self h) x.

(** [Args.contains] *)
Definition contains (self : Args) (x : query) (h : store) : result bool :=
  Seq.contains (all self h) x.

(** [Args.remove]: pops from the list object [self._args]. *)
Definition remove (self : Args) (x : query) (h : store) : result store :=
  let! l := Seq.remove (all self h) x in Ok (assign (_args self) l h).

(** [Args.pop] *)
Definition pop (self : Args) (x : Z) (h : store)
  : result (option string * store) :=
  let! r := Seq.pop_items (all self h) x in
  Ok (fst r, assign (_args self) (snd r) h).

(** [Args(_args, no_argv=True)] on a local list [_args] built by a
    filtering method. *)
Definition derived (items : list string) (h : store) : Args * store :=
  let (r, h') := alloc items h in __init__ (Some r) true h'.

(** [Args.start_with] *)
Definition start_with (self : Args) (x : query) (h : store)
  : result (Args * store) :=
  let! items := Seq.start_with (all self h) x in Ok (derived items h).

(** [Args.all_without] *)
Definition all_without (self : Args) (x : query) (h : store)
  : Args * store :=
  derived (Seq.all_without (all self h) x) h.

(** [Args.all_with] *)
Definition all_with (self : Args) (x : query) (h : store) : Args * store :=
  derived (Seq.all_with (all self h) x) h.

(** [Args.flags] *)
Definition flags (self : Args) (h : store) : result (Args * store) :=
  start_with self (Str "-") h.

(** [Args.not_flags] *)
Definition not_flags (self : Args) (h : store) : Args * store :=
  all_without self (Str "-") h.

(** [Args.copy]: [Args(self.all)] *)
Definition copy (self : Args) (h : store) : Args * store :=
  __init__ (Some (all_ref self)) false h.

(** [Args(items)] / [Args(items, no_argv)] on a list literal. *)
Definition construct (items : list string) (no_argv : bool) (h : store)
  : Args * store :=
  let (r, h') := alloc items h in __init__ (Some r) no_argv h'.

End WithArgv.

End Clint.

(** ** Basic facts about the prelude *)

Section PreludeFacts.

Lemma getitem_nonneg (l : list string) (n : nat) (tok : string) :
  l !! n = Some tok -> getitem l (Z.of_nat n) = Ok tok.
Proof.
  intros Hn. pose proof (lookup_lt_Some _ _ _ Hn) as Hlt.
  unfold getitem.
  destruct (Z.ltb_spec (Z.of_nat n) 0) as [Hneg | _]; [lia |].
  destruct (Z.leb_spec 0 (Z.of_nat n)) as [_ | Hneg]; [| lia].
  destruct (Z.ltb_spec (Z.of_nat n) (Z.of_nat (length l))) as [_ | Hge];
    [| lia].
  simpl. rewrite Nat2Z.id, Hn. reflexivity.
Qed.

Lemma getitem_negative (l : list string) (i : Z) (tok : string) :
  i < 0 ->
  0 <= i + Z.of_nat (length l) ->
  l !! Z.to_nat (i + Z.of_nat (length l)) = Some tok ->
  getitem l i = Ok tok.
Proof.
  intros Hneg Hlo Hn. unfold getitem.
  destruct (Z.ltb_spec i 0) as [_ | Hge]; [| lia].
  destruct (Z.leb_spec 0 (i + Z.of_nat (length l))) as [_ | Hlt]; [| lia].
  destruct (Z.ltb_spec (i + Z.of_nat (length l)) (Z.of_nat (length l)))
    as [_ | Hge]; [| lia].
  simpl. rewrite Hn. reflexivity.
Qed.

Lemma getitem_out_of_range (l : list string) (i : Z) :
  i < - Z.of_nat (length l) \/ Z.of_nat (length l) <= i ->
  getitem l i = Raise IndexError.
Proof.
  intros Hout. unfold getitem.
  destruct (Z.ltb_spec i 0) as [Hneg | Hpos].
  - destruct (Z.leb_spec 0 (i + Z.of_nat (length l))) as [Hlo | _];
      [lia | reflexivity].
  - destruct (Z.leb_spec 0 i) as [_ | Hlt]; [| lia].
    destruct (Z.ltb_spec i (Z.of_nat (length l))) as [Hlt | _];
      [lia | reflexivity].
Qed.

Lemma index_head (l : list string) (x : string) : index (x :: l) x = Ok O.
Proof. simpl. rewrite String.eqb_refl. reflexivity. Qed.

Lemma index_absent (l : list string) (x : string) :
  ~ In x l -> index l x = Raise ValueError.
Proof.
  induction l as [| y l IH]; intros Hnot; simpl; [reflexivity |].
  destruct (String.eqb_spec y x) as [-> | Hne].
  - exfalso. apply Hnot. left. reflexivity.
  - rewrite IH; [reflexivity |]. intros Hin. apply Hnot. right. exact Hin.
Qed.

Lemma index_present (l : list string) (x : string) :
  In x l -> exists i, index l x = Ok i /\ l !! i = Some x.
Proof.
  induction l as [| y l IH]; intros Hin; [destruct Hin |].
  simpl. destruct (String.eqb_spec y x) as [-> | Hne].
  - exists O. split; reflexivity.
  - destruct Hin as [Heq | Hin]; [congruence |].
    destruct (IH Hin) as (i & Hi & Hl). rewrite Hi. simpl.
    exists (S i). split; [reflexivity | exact Hl].
Qed.

Lemma pop_at (l : list string) (i : nat) (x : string) :
  l !! i = Some x -> pop l (Z.of_nat i) = Ok (x, delete i l).
Proof.
  intros Hi. pose proof (lookup_lt_Some _ _ _ Hi) as Hlt.
  unfold pop.
  destruct (Z.ltb_spec (Z.of_nat i) 0) as [Hneg | _]; [lia |].
  destruct (Z.leb_spec 0 (Z.of_nat i)) as [_ | Hneg]; [| lia].
  destruct (Z.ltb_spec (Z.of_nat i) (Z.of_nat (length l))) as [_ | Hge];
    [| lia].
  simpl. rewrite Nat2Z.id, Hi. reflexivity.
Qed.

End PreludeFacts.

(** ** The store *)

Section StoreFacts.

Lemma deref_assign (r : Clint.loc) (l : list string) (h : Clint.store) :
  Clint.deref (Clint.assign r l h) r = l.
Proof.
  unfold Clint.deref, Clint.assign. simpl.
  rewrite lookup_insert_eq. reflexivity.
Qed.

Lemma deref_assign_other (r r' : Clint.loc) (l : list string)
    (h : Clint.store) :
  r <> r' -> Clint.deref (Clint.assign r l h) r' = Clint.deref h r'.
Proof.
  intros Hne. unfold Clint.deref, Clint.assign. simpl.
  rewrite lookup_insert_ne by exact Hne. reflexivity.
Qed.

(** On a non-empty list, [copy] returns an instance whose [_args] is the
    very list object of the original, and allocates nothing. *)
Lemma copy_nonempty_shares (argv : list string) (self : Clint.Args)
    (h : Clint.store) :
  Clint.all self h <> [] ->
  Clint.copy argv self h = (self, h).
Proof.
  intros Hne. unfold Clint.copy, Clint.__init__, Clint.all in *.
  destruct (Clint.deref h (Clint.all_ref self)) as [| a l] eqn:E;
    [congruence |].
  destruct self as [r]. reflexivity.
Qed.

(** What a freshly constructed instance holds. *)
Lemma all_construct (argv items : list string) (no_argv : bool)
    (h : Clint.store) :
  Clint.all (fst (Clint.construct argv items no_argv h))
            (snd (Clint.construct argv items no_argv h)) =
    match items with
    | [] => if no_argv then [] else tail argv
    | _ :: _ => items
    end.
Proof.
  unfold Clint.construct, Clint.__init__, Clint.all, Clint.all_ref,
    Clint.alloc, Clint.deref.
  simpl. rewrite lookup_insert_eq. simpl.
  destruct items as [| x items]; [destruct no_argv |]; simpl;
    rewrite lookup_insert_eq; reflexivity.
Qed.

(** A derived instance holds exactly the filtered items. *)
Lemma all_derived (argv items : list string) (h : Clint.store) :
  Clint.all (fst (Clint.derived argv items h))
            (snd (Clint.derived argv items h)) = items.
Proof.
  change (Clint.derived argv items h)
    with (Clint.construct argv items true h).
  rewrite all_construct. destruct items; reflexivity.
Qed.

End StoreFacts.

(** ** Construction and copying *)

(** C1.  [copy] on the list [["a"; "b"]] does not return an independent
    sequence: the copy's [_args] is the original's list object, so popping
    from the copy, appending to the copy's sequence, or removing from the
    copy changes the contents and the length of the original. *)
Theorem copy_shares_sequence_with_original :
  let argv := ["prog"] in
  let L := fst (Clint.construct argv ["a"; "b"] false Clint.empty_store) in
  let h1 := snd (Clint.construct argv ["a"; "b"] false Clint.empty_store) in
  let c := fst (Clint.copy argv L h1) in
  let h2 := snd (Clint.copy argv L h1) in
  Clint._args c = Clint._args L /\
  Clint.all L h2 = ["a"; "b"] /\
  (exists h3, Clint.pop c 0 h2 = Ok (Some "a", h3) /\
              Clint.all L h3 = ["b"] /\ Clint.__len__ L h3 = 1%nat) /\
  Clint.all L (Clint.list_append (Clint._args c) "z" h2) = ["a"; "b"; "z"] /\
  (exists h3, Clint.remove c (Str "b") h2 = Ok h3 /\
              Clint.all L h3 = ["a"] /\ Clint.__len__ L h3 = 1%nat).
Proof.
  repeat split.
  - eexists. repeat split.
  - eexists. repeat split.
Qed.

(** C3, as the specification words it, fails: with process arguments
    [["prog"; "x"]], constructing from an explicit empty list without argv
    suppression yields a list of length 1, the ambient arguments. *)
Lemma construct_empty_takes_process_arguments :
  let a := fst (Clint.construct ["prog"; "x"] [] false Clint.empty_store) in
  let h := snd (Clint.construct ["prog"; "x"] [] false Clint.empty_store) in
  Clint.all a h = ["x"] /\ Clint.__len__ a h <> 0%nat.
Proof. split; [reflexivity | discriminate]. Qed.

(** C3, amended.  Construction from a non-empty explicit sequence stores
    exactly that sequence.  Construction from an empty explicit sequence
    yields the empty list when argv suppression is requested, and the
    process arguments minus the program name otherwise. *)
Theorem construct_contents (argv items : list string) (no_argv : bool)
    (h : Clint.store) :
  let a := fst (Clint.construct argv items no_argv h) in
  let h' := snd (Clint.construct argv items no_argv h) in
  Clint.all a h' =
    match items with
    | [] => if no_argv then [] else tail argv
    | _ :: _ => items
    end.
Proof. exact (all_construct argv items no_argv h). Qed.

(** ** Indexed access *)

(** C5, as the specification words it, fails: the index [-1] lies outside
    [0 <= i < length], yet [get(-1)] on [["a"]] is the token ["a"]. *)
Lemma get_negative_index_counts_from_end :
  ~ (0 <= -1 < Z.of_nat (length ["a"])) /\
  Seq.get ["a"] (-1) = Ok (Some "a") /\
  Seq.get ["a"] (-1) <> Ok None.
Proof. split; [simpl; lia | split; [reflexivity | discriminate]]. Qed.

(** C5, amended.  For [0 <= i < length], [get(i)] is the [i]-th stored
    token; for [-length <= i < 0] it is the token at position
    [length + i]; for [i >= length] or [i < -length] it is absent. *)
Theorem get_by_index (l : list string) (i : Z) :
  let n := Z.of_nat (length l) in
  (0 <= i < n ->
   exists tok, l !! Z.to_nat i = Some tok /\ Seq.get l i = Ok (Some tok)) /\
  (- n <= i < 0 ->
   exists tok, l !! Z.to_nat (n + i) = Some tok /\
               Seq.get l i = Ok (Some tok)) /\
  (i < - n \/ n <= i -> Seq.get l i = Ok None).
Proof.
  intros n. subst n. repeat split.
  - intros Hin.
    destruct (lookup_lt_is_Some_2 l (Z.to_nat i)) as [tok Htok]; [lia |].
    exists tok. split; [exact Htok |].
    unfold Seq.get. rewrite <- (Z2Nat.id i) by lia.
    rewrite (getitem_nonneg _ _ _ Htok). reflexivity.
  - intros Hin.
    destruct (lookup_lt_is_Some_2 l (Z.to_nat (Z.of_nat (length l) + i)))
      as [tok Htok]; [lia |].
    exists tok. split; [exact Htok |].
    unfold Seq.get. rewrite (getitem_negative l i tok); [reflexivity | lia ..|].
    rewrite Z.add_comm. exact Htok.
  - intros Hout. unfold Seq.get.
    rewrite (getitem_out_of_range l i Hout). reflexivity.
Qed.

Lemma get_by_index_witness :
  (exists tok, ["a"; "b"] !! Z.to_nat 1 = Some tok /\
               Seq.get ["a"; "b"] 1 = Ok (Some tok)) /\
  (exists tok, ["a"; "b"] !! Z.to_nat (2 + -1) = Some tok /\
               Seq.get ["a"; "b"] (-1) = Ok (Some tok)) /\
  Seq.get ["a"; "b"] 2 = Ok None.
Proof.
  split; [| split].
  - apply (proj1 (get_by_index ["a"; "b"] 1)). simpl. lia.
  - apply (proj1 (proj2 (get_by_index ["a"; "b"] (-1)))). simpl. lia.
  - apply (proj2 (proj2 (get_by_index ["a"; "b"] 2))). simpl. lia.
Defined.

(** ** Searching *)

(** C2.  [get_with] on a miss: no element of [["a"]] contains ["z"], so
    [first_with] yields [None] and the unguarded subscript raises
    [TypeError]; the guarded sibling [get] yields the absent value on its
    own miss. *)
Theorem get_with_raises_on_miss :
  Seq.first_with ["a"] (Str "z") = Ok None /\
  Seq.get_with ["a"] (Str "z") = Raise TypeError /\
  Seq.get ["a"] 5 = Ok None.
Proof. repeat split. Qed.

(** C4.  [first_with] with a candidate list drops a match at index 0:
    on [["ab"; "cd"]] the candidate ["a"] matches at index 0, yet
    [first_with(["a"])] is absent and [first_with(["a"; "c"])] is 1, while
    the exact-match sibling [first] returns index 0 for its first
    candidate. *)
Theorem first_with_candidates_skip_index_zero :
  Seq.first_with ["ab"; "cd"] (Str "a") = Ok (Some 0%nat) /\
  Seq.first_with ["ab"; "cd"] (Coll ["a"]) = Ok None /\
  Seq.first_with ["ab"; "cd"] (Coll ["a"; "c"]) = Ok (Some 1%nat) /\
  Seq.first ["ab"; "cd"] (Coll ["ab"; "cd"]) = Ok (Some 0%nat).
Proof. repeat split. Qed.

Section SearchFacts.

Lemma first_with_scan_total (all rest : list string) (x : string) :
  incl rest all -> exists v, Seq.first_with_scan all rest x = Ok v.
Proof.
  induction rest as [| arg rest IH]; intros Hincl; simpl.
  - exists None. reflexivity.
  - destruct (str_in x arg).
    + destruct (index_present all arg) as (i & Hi & _).
      { apply Hincl. left. reflexivity. }
      rewrite Hi. exists (Some i). reflexivity.
    + apply IH. intros y Hy. apply Hincl. right. exact Hy.
Qed.

Lemma first_with_find_total (all : list string) (x : string) :
  exists v, Seq.first_with_find all x = Ok v.
Proof.
  unfold Seq.first_with_find.
  destruct (first_with_scan_total all all x (incl_refl all)) as [v Hv].
  rewrite Hv. exists v. reflexivity.
Qed.

Lemma first_with_loop_total (all xs : list string) :
  exists v, Seq.first_with_loop all xs = Ok v.
Proof.
  induction xs as [| item xs IH]; simpl.
  - exists None. reflexivity.
  - destruct (first_with_find_total all item) as [v Hv]. rewrite Hv. simpl.
    destruct (index_truthy v); [exists v; reflexivity | exact IH].
Qed.

Lemma first_with_total (all : list string) (q : query) :
  exists v, Seq.first_with all q = Ok v.
Proof.
  destruct q as [s | xs]; simpl.
  - apply first_with_find_total.
  - apply first_with_loop_total.
Qed.

Lemma first_with_scan_none (all rest : list string) (x : string) :
  Forall (fun b => str_in x b = false) rest ->
  Seq.first_with_scan all rest x = Ok None.
Proof.
  induction 1 as [| arg rest Harg _ IH]; simpl; [reflexivity |].
  rewrite Harg. exact IH.
Qed.

Lemma first_with_find_head (a : string) (rest : list string) (x : string) :
  str_in x a = true -> Seq.first_with_find (a :: rest) x = Ok (Some O).
Proof.
  intros Ha. unfold Seq.first_with_find.
  cbn [Seq.first_with_scan]. rewrite Ha, index_head. reflexivity.
Qed.

(** On a miss [first_with] yields [None], and [get_with] then subscripts
    the list by [None]. *)
Lemma get_with_miss (l : list string) (x : string) :
  Forall (fun b => str_in x b = false) l ->
  Seq.get_with l (Str x) = Raise TypeError.
Proof.
  intros Hmiss. unfold Seq.get_with. simpl. unfold Seq.first_with_find.
  rewrite first_with_scan_none by exact Hmiss. reflexivity.
Qed.

Lemma index_truthy_iff (v : option nat) :
  index_truthy v = true <-> exists i, v = Some i /\ (0 < i)%nat.
Proof.
  split.
  - destruct v as [[| i] |]; simpl; intros H; try discriminate.
    exists (S i). split; [reflexivity | lia].
  - intros (i & -> & Hi). destruct i; [lia | reflexivity].
Qed.

Lemma index_single_occurrence (l : list string) (x : string) :
  count_occ string_dec l x = 1%nat ->
  exists i, index l x = Ok i /\ l !! i = Some x /\ ~ In x (delete i l).
Proof.
  induction l as [| y l IH]; simpl; intros Hc; [discriminate |].
  destruct (string_dec y x) as [-> | Hne].
  - exists O. rewrite String.eqb_refl. repeat split.
    simpl. apply (count_occ_not_In string_dec). lia.
  - destruct (IH Hc) as (i & Hi & Hl & Hnot).
    destruct (String.eqb_spec y x) as [Heq | _]; [contradiction |].
    rewrite Hi. exists (S i). repeat split; [exact Hl |].
    simpl. intros [Heq | Hin]; [contradiction | exact (Hnot Hin)].
Qed.

End SearchFacts.

(** C6.  [any_contain] always yields a boolean, and it is true exactly
    when [first_with] yields an index strictly greater than 0.  For a
    substring [x]: whenever the element at index 0 contains [x] (so in
    particular when the only containing element sits there) the answer is
    false, and it is false when no element contains [x]. *)
Theorem any_contain_index_zero_quirk (l : list string) (q : query)
    (x : string) :
  (exists b, Seq.any_contain l q = Ok b) /\
  (Seq.any_contain l q = Ok true <->
   exists i, Seq.first_with l q = Ok (Some i) /\ (0 < i)%nat) /\
  (forall a rest, l = a :: rest -> str_in x a = true ->
                  Seq.first_with l (Str x) = Ok (Some O) /\
                  Seq.any_contain l (Str x) = Ok false) /\
  (Forall (fun b => str_in x b = false) l ->
   Seq.first_with l (Str x) = Ok None /\
   Seq.any_contain l (Str x) = Ok false).
Proof.
  repeat split.
  - unfold Seq.any_contain.
    destruct (first_with_total l q) as [v Hv]. rewrite Hv.
    exists (index_truthy v). reflexivity.
  - unfold Seq.any_contain. destruct (Seq.first_with l q) as [v | e]; simpl.
    + intros Hb. injection Hb as Hb. apply index_truthy_iff in Hb.
      destruct Hb as (i & -> & Hi). exists i. split; [reflexivity | exact Hi].
    + discriminate.
  - unfold Seq.any_contain. intros (i & Hi & Hpos). rewrite Hi. simpl.
    destruct i; [lia | reflexivity].
  - subst l. simpl. apply first_with_find_head. assumption.
  - subst l. unfold Seq.any_contain. simpl.
    rewrite first_with_find_head by assumption. reflexivity.
  - simpl. unfold Seq.first_with_find.
    rewrite first_with_scan_none by assumption. reflexivity.
  - unfold Seq.any_contain. simpl. unfold Seq.first_with_find.
    rewrite first_with_scan_none by assumption. reflexivity.
Qed.

Lemma any_contain_index_zero_quirk_witness :
  (Seq.first_with ["-v"; "out"] (Str "-") = Ok (Some O) /\
   Seq.any_contain ["-v"; "out"] (Str "-") = Ok false) /\
  (Seq.first_with ["-v"; "out"] (Str "z") = Ok None /\
   Seq.any_contain ["-v"; "out"] (Str "z") = Ok false) /\
  (exists i, Seq.first_with ["-v"; "out"] (Str "u") = Ok (Some i) /\
             (0 < i)%nat).
Proof.
  split; [| split].
  - apply (proj1 (proj2 (proj2
      (any_contain_index_zero_quirk ["-v"; "out"] (Str "-") "-")))
      "-v" ["out"]); reflexivity.
  - apply (proj2 (proj2 (proj2
      (any_contain_index_zero_quirk ["-v"; "out"] (Str "z") "z")))).
    repeat constructor.
  - apply (proj1 (proj1 (proj2
      (any_contain_index_zero_quirk ["-v"; "out"] (Str "u") "u")))).
    reflexivity.
Defined.

(** ** Removal *)

(** C7.  When the string [x] occurs exactly once in the list, [remove(x)]
    succeeds, [contains(x)] is false afterwards, and the length has
    decreased by exactly one. *)
Theorem remove_single_occurrence (self : Clint.Args) (h : Clint.store)
    (x : string) :
  count_occ string_dec (Clint.all self h) x = 1%nat ->
  exists h',
    Clint.remove self (Str x) h = Ok h' /\
    Clint.contains self (Str x) h' = Ok false /\
    Clint.__len__ self h = S (Clint.__len__ self h').
Proof.
  intros Hc.
  destruct (index_single_occurrence _ _ Hc) as (i & Hi & Hl & Hnot).
  exists (Clint.assign (Clint._args self) (delete i (Clint.all self h)) h).
  unfold Clint.remove, Clint.contains, Clint.__len__, Clint.all,
    Clint.all_ref in *.
  rewrite deref_assign.
  repeat split.
  - simpl. unfold Seq._remove. simpl. unfold Seq.first_find.
    rewrite Hi. simpl.
    rewrite (pop_at _ _ _ Hl). reflexivity.
  - unfold Seq.contains, Seq.__contains__. simpl. unfold Seq.first_find.
    rewrite (index_absent _ _ Hnot). reflexivity.
  - unfold Seq.__len__. rewrite length_delete by (exists x; exact Hl).
    pose proof (lookup_lt_Some _ _ _ Hl). lia.
Qed.

Lemma remove_single_occurrence_witness :
  let a := fst (Clint.construct ["prog"] ["-f"; "out"; "in"] false
                  Clint.empty_store) in
  let h := snd (Clint.construct ["prog"] ["-f"; "out"; "in"] false
                  Clint.empty_store) in
  exists h',
    Clint.remove a (Str "out") h = Ok h' /\
    Clint.contains a (Str "out") h' = Ok false /\
    Clint.__len__ a h = S (Clint.__len__ a h').
Proof.
  apply (remove_single_occurrence
           (fst (Clint.construct ["prog"] ["-f"; "out"; "in"] false
                   Clint.empty_store))
           (snd (Clint.construct ["prog"] ["-f"; "out"; "in"] false
                   Clint.empty_store))
           "out").
  vm_compute. reflexivity.
Defined.

(** ** Filters *)

Section FilterFacts.

Lemma start_with_loop_filter (s : string) (rest acc : list string) :
  Seq.start_with_loop (Str s) rest acc =
  Ok (acc ++ List.filter (fun a => startswith a s) rest).
Proof.
  revert acc. induction rest as [| arg rest IH]; intros acc; simpl.
  - rewrite app_nil_r. reflexivity.
  - rewrite IH. destruct (startswith arg s); [| reflexivity].
    rewrite <- app_assoc. reflexivity.
Qed.

Lemma all_without_loop_filter (s : string) (rest acc : list string) :
  Seq.all_without_loop (Str s) rest acc =
  acc ++ List.filter (fun a => negb (str_in s a)) rest.
Proof.
  revert acc. induction rest as [| arg rest IH]; intros acc; simpl.
  - rewrite app_nil_r. reflexivity.
  - rewrite IH. destruct (str_in s arg); simpl; [reflexivity |].
    rewrite <- app_assoc. reflexivity.
Qed.

End FilterFacts.

(** C9.  [flags] is [start_with("-")] and [not_flags] is
    [all_without("-")]: the first holds the elements that start with "-",
    the second the elements that do not contain "-" anywhere (so ["a-b"]
    is excluded although it does not start with "-").  On
    [["-a"; "b"; "-c"]] they hold [["-a"; "-c"]] and [["b"]]. *)
Theorem flags_and_not_flags (argv : list string) (self : Clint.Args)
    (h : Clint.store) :
  Clint.flags argv self h = Clint.start_with argv self (Str "-") h /\
  Clint.not_flags argv self h = Clint.all_without argv self (Str "-") h /\
  (exists f h1,
     Clint.flags argv self h = Ok (f, h1) /\
     Clint.all f h1 =
       List.filter (fun a => startswith a "-") (Clint.all self h)) /\
  Clint.all (fst (Clint.not_flags argv self h))
            (snd (Clint.not_flags argv self h)) =
    List.filter (fun a => negb (str_in "-" a)) (Clint.all self h) /\
  Seq.flags ["-a"; "b"; "-c"] = Ok ["-a"; "-c"] /\
  Seq.not_flags ["-a"; "b"; "-c"] = ["b"] /\
  Seq.not_flags ["a-b"; "b"] = ["b"].
Proof.
  split; [reflexivity |]. split; [reflexivity |].
  split; [| split; [| repeat split]].
  - unfold Clint.flags, Clint.start_with, Seq.start_with.
    rewrite start_with_loop_filter. simpl.
    eexists _, _. split.
    + apply f_equal. apply surjective_pairing.
    + apply all_derived.
  - unfold Clint.not_flags, Clint.all_without, Seq.all_without.
    rewrite all_derived, all_without_loop_filter. reflexivity.
Qed.

(** ** Grouping *)

Section GroupedFacts.

Import Grouped.

Lemma od_get_in_keys (d : odict) (k : string) :
  is_Some (od_get d k) <-> In k (od_keys d).
Proof.
  induction d as [| [k' v] d IH]; simpl.
  - split; [intros [? ?]; discriminate | intros []].
  - destruct (String.eqb_spec k' k) as [-> | Hne].
    + split; [intros _; left; reflexivity | intros _; eexists; reflexivity].
    + rewrite IH. split; [intros H; right; exact H |].
      intros [Heq | H]; [contradiction | exact H].
Qed.

Lemma od_get_app_fresh (d : odict) (k k' : string) (v : list string) :
  od_get (d ++ [(k, v)]) k' =
  match od_get d k' with
  | Some w => Some w
  | None => if String.eqb k k' then Some v else None
  end.
Proof.
  induction d as [| [k0 v0] d IH]; simpl; [reflexivity |].
  destruct (String.eqb k0 k'); [reflexivity | exact IH].
Qed.

Lemma od_setdefault_get_same (d : odict) (k : string) (v : list string) :
  od_get (od_setdefault d k v) k =
  Some (default v (od_get d k)).
Proof.
  unfold od_setdefault. destruct (od_get d k) as [w |] eqn:E; simpl.
  - exact E.
  - rewrite od_get_app_fresh, E, String.eqb_refl. reflexivity.
Qed.

Lemma od_setdefault_get_other (d : odict) (k k' : string)
    (v : list string) :
  k <> k' -> od_get (od_setdefault d k v) k' = od_get d k'.
Proof.
  intros Hne. unfold od_setdefault. destruct (od_get d k); [reflexivity |].
  rewrite od_get_app_fresh. destruct (od_get d k'); [reflexivity |].
  destruct (String.eqb_spec k k'); [contradiction | reflexivity].
Qed.

Lemma od_setdefault_keeps (d : odict) (k k' : string) (v : list string) :
  is_Some (od_get d k') -> is_Some (od_get (od_setdefault d k v) k').
Proof.
  intros Hs. destruct (String.eqb_spec k k') as [-> | Hne].
  - rewrite od_setdefault_get_same. eexists; reflexivity.
  - rewrite od_setdefault_get_other by exact Hne. exact Hs.
Qed.

Lemma od_setdefault_keys (d : odict) (k : string) (v : list string) :
  od_keys (od_setdefault d k v) =
  if existsb (String.eqb k) (od_keys d) then od_keys d
  else od_keys d ++ [k].
Proof.
  unfold od_setdefault.
  destruct (existsb (String.eqb k) (od_keys d)) eqn:Ex.
  - apply existsb_exists in Ex. destruct Ex as (k' & Hin & Heq).
    apply String.eqb_eq in Heq. subst k'.
    apply od_get_in_keys in Hin. destruct Hin as [w ->]. reflexivity.
  - destruct (od_get d k) as [w |] eqn:E.
    + assert (Hin : In k (od_keys d))
        by (apply od_get_in_keys; eexists; exact E).
      assert (Ex' : existsb (String.eqb k) (od_keys d) = true).
      { apply existsb_exists. exists k. split; [exact Hin |].
        apply String.eqb_refl. }
      congruence.
    + unfold od_keys. rewrite map_app. reflexivity.
Qed.

Lemma od_append_present (d : odict) (k arg : string) (v : list string) :
  od_get d k = Some v ->
  exists d',
    od_append d k arg = Ok d' /\
    od_keys d' = od_keys d /\
    od_get d' k = Some (v ++ [arg]) /\
    (forall k', k' <> k -> od_get d' k' = od_get d k').
Proof.
  induction d as [| [k0 v0] d IH]; simpl; intros Hk; [discriminate |].
  destruct (String.eqb_spec k0 k) as [-> | Hne].
  - injection Hk as ->. eexists. split; [reflexivity |]. simpl.
    rewrite String.eqb_refl. repeat split.
    intros k' Hk'. destruct (String.eqb_spec k k');
      [congruence | reflexivity].
  - destruct (IH Hk) as (d' & Happ & Hkeys & Hget & Hoth).
    rewrite Happ. simpl. eexists. split; [reflexivity |]. simpl.
    destruct (String.eqb_spec k0 k) as [? | _]; [contradiction |].
    rewrite Hkeys. repeat split; [exact Hget |].
    intros k' Hk'. destruct (String.eqb k0 k'); [reflexivity |].
    apply Hoth. exact Hk'.
Qed.

Lemma flag_truthy (f : string) :
  startswith f "-" = true -> str_truthy f = true.
Proof. destruct f; [discriminate | reflexivity]. Qed.

Lemma loop_state_ok_flag (d : odict) (cur : option string) (arg : string) :
  loop_state_ok d cur -> loop_state_ok (od_setdefault d arg []) (Some arg).
Proof.
  intros [Hs _]. split.
  - apply od_setdefault_keeps. exact Hs.
  - intros g Hg. injection Hg as <-. rewrite od_setdefault_get_same.
    eexists; reflexivity.
Qed.

(** A non-flag token is appended to exactly one group; the keys and the
    other groups stay as they are. *)
Lemma loop_step_append (d : odict) (cur : option string) (arg : string) :
  loop_state_ok d cur ->
  exists k v d',
    match cur with
    | Some g =>
        if str_truthy g then od_append d g arg else od_append d "_" arg
    | None => od_append d "_" arg
    end = Ok d' /\
    k = match cur with
        | Some g => if str_truthy g then g else "_"
        | None => "_"
        end /\
    od_get d k = Some v /\
    od_keys d' = od_keys d /\
    od_get d' k = Some (v ++ [arg]) /\
    (forall k', k' <> k -> od_get d' k' = od_get d k') /\
    loop_state_ok d' cur.
Proof.
  intros [[v0 Hs] Hcur].
  assert (Hgen : forall k v, od_get d k = Some v ->
    exists d', od_append d k arg = Ok d' /\
      od_keys d' = od_keys d /\ od_get d' k = Some (v ++ [arg]) /\
      (forall k', k' <> k -> od_get d' k' = od_get d k') /\
      loop_state_ok d' cur).
  { intros k v Hk.
    destruct (od_append_present d k arg v Hk) as (d' & Ha & Hkeys & Hg & Ho).
    exists d'. repeat split; try assumption.
    - apply od_get_in_keys. rewrite Hkeys. apply od_get_in_keys.
      eexists; exact Hs.
    - intros g Hg'. apply od_get_in_keys. rewrite Hkeys.
      apply od_get_in_keys. apply Hcur. exact Hg'. }
  destruct cur as [g |].
  - destruct (str_truthy g).
    + destruct (Hcur g eq_refl) as [v Hv].
      destruct (Hgen g v Hv) as (d' & ? & ? & ? & ? & ?).
      exists g, v, d'. repeat (split; [first [assumption | reflexivity] |]); assumption.
    + destruct (Hgen "_" v0 Hs) as (d' & ? & ? & ? & ? & ?).
      exists "_", v0, d'. repeat (split; [first [assumption | reflexivity] |]); assumption.
  - destruct (Hgen "_" v0 Hs) as (d' & ? & ? & ? & ? & ?).
    exists "_", v0, d'. repeat (split; [first [assumption | reflexivity] |]); assumption.
Qed.

(** The loop never raises from a sound state, and keeps the sentinel. *)
Lemma grouped_loop_total (rest : list string) (d : odict)
    (cur : option string) :
  loop_state_ok d cur ->
  exists d', grouped_loop rest d cur = Ok d' /\ is_Some (od_get d' "_").
Proof.
  revert d cur. induction rest as [| arg rest IH]; intros d cur Hok.
  - exists d. split; [reflexivity | exact (proj1 Hok)].
  - cbn [grouped_loop]. destruct (startswith arg "-").
    + apply IH. apply loop_state_ok_flag with (cur := cur). exact Hok.
    + destruct (loop_step_append d cur arg Hok)
        as (k & v & d' & Hstep & _ & _ & _ & _ & _ & Hok').
      rewrite Hstep. simpl. apply IH. exact Hok'.
Qed.

Lemma initial_state_ok : loop_state_ok [("_", [])] None.
Proof. split; [eexists; reflexivity | discriminate]. Qed.

End GroupedFacts.

(** C8.  [grouped] on [["-a"; "1"; "2"; "-b"; "3"]] yields three groups in
    this order: the sentinel key ["_"] with the empty list, ["-a"] with
    [["1"; "2"]] and ["-b"] with [["3"]].  On every input [grouped]
    returns a mapping in which the sentinel key is present. *)
Theorem grouped_example_and_sentinel :
  Grouped.grouped ["-a"; "1"; "2"; "-b"; "3"] =
    Ok [("_", []); ("-a", ["1"; "2"]); ("-b", ["3"])] /\
  (forall l : list string,
     exists d v, Grouped.grouped l = Ok d /\
                 Grouped.od_get d "_" = Some v /\
                 In "_" (Grouped.od_keys d)) /\
  Grouped.grouped [] = Ok [("_", [])].
Proof.
  split; [reflexivity |]. split; [| reflexivity].
  intros l.
  destruct (grouped_loop_total l [("_", [])] None initial_state_ok)
    as (d & Hd & [v Hv]).
  exists d, v. repeat split; [exact Hd | exact Hv |].
  apply od_get_in_keys. eexists; exact Hv.
Qed.

Section RepeatedFlags.

Import Grouped.

Lemma existsb_eqb_In (k : string) (ks : list string) :
  existsb (String.eqb k) ks = true <-> In k ks.
Proof.
  rewrite existsb_exists. split.
  - intros (k' & Hin & Heq). apply String.eqb_eq in Heq. subst k'. exact Hin.
  - intros Hin. exists k. split; [exact Hin | apply String.eqb_refl].
Qed.

Lemma od_setdefault_nodup (d : odict) (k : string) (v : list string) :
  List.NoDup (od_keys d) -> List.NoDup (od_keys (od_setdefault d k v)).
Proof.
  intros Hnd. rewrite od_setdefault_keys.
  destruct (existsb (String.eqb k) (od_keys d)) eqn:Ex; [exact Hnd |].
  apply List.NoDup_app; [exact Hnd | repeat constructor; intros [] |].
  intros a Ha [<- | []].
  apply existsb_eqb_In in Ha. congruence.
Qed.

(** The keys after the loop: the keys before it, followed by the new flag
    tokens in the order in which they first occur. *)
Lemma grouped_loop_keys (rest : list string) (d : odict)
    (cur : option string) :
  loop_state_ok d cur ->
  exists d',
    grouped_loop rest d cur = Ok d' /\
    od_keys d' =
      od_keys d ++
      first_seen (od_keys d)
        (List.filter (fun a => startswith a "-") rest) /\
    (List.NoDup (od_keys d) -> List.NoDup (od_keys d')).
Proof.
  revert d cur. induction rest as [| arg rest IH]; intros d cur Hok.
  - exists d. simpl. rewrite app_nil_r. repeat split. intros H; exact H.
  - cbn [grouped_loop List.filter].
    destruct (startswith arg "-") eqn:Hflag.
    + destruct (IH _ _ (loop_state_ok_flag d cur arg Hok))
        as (d' & Hloop & Hkeys & Hnd).
      exists d'. split; [exact Hloop |]. split.
      * rewrite Hkeys, od_setdefault_keys. cbn [first_seen].
        destruct (existsb (String.eqb arg) (od_keys d)); [reflexivity |].
        rewrite <- app_assoc. reflexivity.
      * intros H. apply Hnd. apply od_setdefault_nodup. exact H.
    + destruct (loop_step_append d cur arg Hok)
        as (k & v & d1 & Hstep & _ & _ & Hk1 & _ & _ & Hok1).
      rewrite Hstep. cbn [bind].
      destruct (IH _ _ Hok1) as (d' & Hloop & Hkeys & Hnd).
      exists d'. rewrite Hk1 in Hkeys, Hnd.
      split; [exact Hloop |]. split; [exact Hkeys | exact Hnd].
Qed.

(** Non-flag tokens after an open flag [f] all go to the group of [f]. *)
Lemma grouped_loop_tokens (ts : list string) (d : odict) (f : string)
    (v : list string) :
  Forall (fun t => startswith t "-" = false) ts ->
  str_truthy f = true ->
  is_Some (od_get d "_") ->
  od_get d f = Some v ->
  exists d',
    grouped_loop ts d (Some f) = Ok d' /\
    od_keys d' = od_keys d /\
    od_get d' f = Some (v ++ ts) /\
    (forall k, k <> f -> od_get d' k = od_get d k).
Proof.
  intros Hts Hf. revert d v.
  induction Hts as [| t ts Ht _ IH]; intros d v Hs Hv.
  - exists d. rewrite app_nil_r. repeat split. exact Hv.
  - cbn [grouped_loop]. rewrite Ht, Hf.
    destruct (od_append_present d f t v Hv) as (d1 & Ha & Hk1 & Hg1 & Ho1).
    rewrite Ha. cbn [bind].
    assert (Hs1 : is_Some (od_get d1 "_")).
    { apply od_get_in_keys. rewrite Hk1. apply od_get_in_keys. exact Hs. }
    destruct (IH d1 (v ++ [t]) Hs1 Hg1) as (d' & Hloop & Hk & Hg & Ho).
    exists d'. split; [exact Hloop |]. split; [congruence |]. split.
    + rewrite Hg, <- app_assoc. reflexivity.
    + intros k Hk'. rewrite (Ho k Hk'). apply Ho1. exact Hk'.
Qed.

(** A flag [f] that is already a key, or that occurs in [l1]: the tokens
    after a later occurrence of [f] extend the group it has after [l1]. *)
Lemma grouped_loop_repeated (l1 ts : list string) (f : string) :
  startswith f "-" = true ->
  Forall (fun t => startswith t "-" = false) ts ->
  forall (d : odict) (cur : option string),
    loop_state_ok d cur ->
    In f l1 \/ is_Some (od_get d f) ->
    exists d1 d2 v,
      grouped_loop l1 d cur = Ok d1 /\
      grouped_loop (l1 ++ f :: ts) d cur = Ok d2 /\
      od_keys d2 = od_keys d1 /\
      od_get d1 f = Some v /\
      od_get d2 f = Some (v ++ ts) /\
      (forall k, k <> f -> od_get d2 k = od_get d1 k).
Proof.
  intros Hf Hts. induction l1 as [| arg l1 IH]; intros d cur Hok Hocc.
  - destruct Hocc as [[] | [v Hv]].
    cbn [app grouped_loop]. rewrite Hf.
    assert (Hsd : od_setdefault d f [] = d)
      by (unfold od_setdefault; rewrite Hv; reflexivity).
    rewrite Hsd.
    destruct (grouped_loop_tokens ts d f v Hts (flag_truthy f Hf)
                (proj1 Hok) Hv) as (d2 & Hloop & Hk & Hg & Ho).
    exists d, d2, v. repeat split; assumption.
  - cbn [app grouped_loop]. destruct (startswith arg "-") eqn:Hflag.
    + apply IH; [apply loop_state_ok_flag with (cur := cur); exact Hok |].
      destruct (String.eqb_spec arg f) as [-> | Hne].
      * right. rewrite od_setdefault_get_same. eexists; reflexivity.
      * destruct Hocc as [[Heq | Hin] | Hs];
          [contradiction | left; exact Hin |].
        right. apply od_setdefault_keeps. exact Hs.
    + destruct (loop_step_append d cur arg Hok)
        as (k & v & d1 & Hstep & _ & _ & Hk1 & _ & _ & Hok1).
      rewrite Hstep. cbn [bind]. apply IH; [exact Hok1 |].
      destruct Hocc as [[Heq | Hin] | Hs].
      * subst arg. congruence.
      * left. exact Hin.
      * right. apply od_get_in_keys. rewrite Hk1.
        apply od_get_in_keys. exact Hs.
Qed.

End RepeatedFlags.

(** C10.  [grouped] keeps one entry per distinct flag string, with the
    keys in order of first occurrence after the sentinel.  When a flag [f]
    occurs again after the tokens [l1], the non-flag tokens [ts] that
    follow are appended to the group [f] already has: the keys and all
    other groups are unchanged.  In particular
    [["-a"; "1"; "-b"; "2"; "-a"; "3"]] maps ["-a"] to [["1"; "3"]] and
    ["-b"] to [["2"]]. *)
Theorem grouped_repeated_flag (l l1 ts : list string) (f : string) :
  Grouped.grouped ["-a"; "1"; "-b"; "2"; "-a"; "3"] =
    Ok [("_", []); ("-a", ["1"; "3"]); ("-b", ["2"])] /\
  (exists d,
     Grouped.grouped l = Ok d /\
     List.NoDup (Grouped.od_keys d) /\
     Grouped.od_keys d =
       "_" :: Grouped.first_seen ["_"]
                (List.filter (fun a => startswith a "-") l)) /\
  (startswith f "-" = true ->
   In f l1 ->
   Forall (fun t => startswith t "-" = false) ts ->
   exists d1 d2 v,
     Grouped.grouped l1 = Ok d1 /\
     Grouped.grouped (l1 ++ f :: ts) = Ok d2 /\
     Grouped.od_keys d2 = Grouped.od_keys d1 /\
     Grouped.od_get d1 f = Some v /\
     Grouped.od_get d2 f = Some (v ++ ts) /\
     (forall k, k <> f -> Grouped.od_get d2 k = Grouped.od_get d1 k)).
Proof.
  split; [reflexivity |]. split.
  - destruct (grouped_loop_keys l [("_", [])] None initial_state_ok)
      as (d & Hd & Hkeys & Hnd).
    exists d. split; [exact Hd |]. split; [| exact Hkeys].
    apply Hnd. repeat constructor. intros [].
  - intros Hf Hin Hts.
    apply (grouped_loop_repeated l1 ts f Hf Hts [("_", [])] None
             initial_state_ok).
    left. exact Hin.
Qed.

Lemma grouped_repeated_flag_witness :
  exists d1 d2 v,
    Grouped.grouped ["-a"; "1"; "-b"; "2"] = Ok d1 /\
    Grouped.grouped (["-a"; "1"; "-b"; "2"] ++ "-a" :: ["3"; "4"]) = Ok d2 /\
    Grouped.od_keys d2 = Grouped.od_keys d1 /\
    Grouped.od_get d1 "-a" = Some v /\
    Grouped.od_get d2 "-a" = Some (v ++ ["3"; "4"]) /\
    (forall k, k <> "-a" -> Grouped.od_get d2 k = Grouped.od_get d1 k).
Proof.
  apply (proj2 (proj2 (grouped_repeated_flag
                         [] ["-a"; "1"; "-b"; "2"] ["3"; "4"] "-a"))).
  - reflexivity.
  - simpl. left. reflexivity.
  - repeat constructor.
Defined.

(** ** Exact search: [first] and [contains] *)

Section ExactSearch.

Lemma index_app_fresh (pre post : list string) (x : string) :
  ~ In x pre -> index (pre ++ x :: post) x = Ok (length pre).
Proof.
  induction pre as [| y pre IH]; intros Hnot; simpl.
  - rewrite String.eqb_refl. reflexivity.
  - destruct (String.eqb_spec y x) as [-> | Hne].
    + exfalso. apply Hnot. left. reflexivity.
    + rewrite IH; [reflexivity |]. intros Hin. apply Hnot. right. exact Hin.
Qed.

(** Every list splits at the first occurrence of a string it holds. *)
Lemma split_first_occurrence (l : list string) (x : string) :
  In x l -> exists pre post, l = pre ++ x :: post /\ ~ In x pre.
Proof.
  induction l as [| y l IH]; intros Hin; [destruct Hin |].
  destruct (string_dec y x) as [-> | Hne].
  - exists [], l. split; [reflexivity | intros []].
  - destruct Hin as [Heq | Hin]; [contradiction |].
    destruct (IH Hin) as (pre & post & -> & Hnot).
    exists (y :: pre), post. split; [reflexivity |].
    intros [Heq | Hin']; [contradiction | exact (Hnot Hin')].
Qed.

Lemma first_find_present (pre post : list string) (x : string) :
  ~ In x pre ->
  Seq.first_find (pre ++ x :: post) x = Ok (Some (length pre)).
Proof.
  intros Hnot. unfold Seq.first_find.
  rewrite (index_app_fresh _ _ _ Hnot). reflexivity.
Qed.

Lemma first_find_absent (l : list string) (x : string) :
  ~ In x l -> Seq.first_find l x = Ok None.
Proof.
  intros Hnot. unfold Seq.first_find.
  rewrite (index_absent _ _ Hnot). reflexivity.
Qed.

(** The search for one string either misses, or finds its first
    occurrence. *)
Lemma first_find_cases (l : list string) (x : string) :
  (~ In x l /\ Seq.first_find l x = Ok None) \/
  (exists pre post,
     l = pre ++ x :: post /\ ~ In x pre /\
     Seq.first_find l x = Ok (Some (length pre))).
Proof.
  destruct (in_dec string_dec x l) as [Hin | Hnot].
  - right. destruct (split_first_occurrence l x Hin)
      as (pre & post & -> & Hpre).
    exists pre, post. repeat split; [exact Hpre |].
    apply first_find_present. exact Hpre.
  - left. split; [exact Hnot | apply first_find_absent; exact Hnot].
Qed.

Lemma first_loop_skip (l cs rest : list string) :
  Forall (fun c => ~ In c l) cs ->
  Seq.first_loop l (cs ++ rest) = Seq.first_loop l rest.
Proof.
  induction 1 as [| c cs Hc _ IH]; simpl; [reflexivity |].
  rewrite (first_find_absent _ _ Hc). simpl. exact IH.
Qed.

(** The candidates split at the first one that occurs in the list. *)
Lemma split_first_candidate (l xs : list string) :
  Forall (fun c => ~ In c l) xs \/
  exists cs c cs',
    xs = cs ++ c :: cs' /\ Forall (fun c' => ~ In c' l) cs /\ In c l.
Proof.
  induction xs as [| c xs IH]; [left; constructor |].
  destruct (in_dec string_dec c l) as [Hin | Hnot].
  - right. exists [], c, xs. repeat split; [constructor | exact Hin].
  - destruct IH as [Hall | (cs & c0 & cs' & -> & Hcs & Hin)].
    + left. constructor; assumption.
    + right. exists (c :: cs), c0, cs'.
      repeat split; [constructor; assumption | exact Hin].
Qed.

Lemma first_loop_hit (l cs cs' : list string) (c : string) :
  Forall (fun c' => ~ In c' l) cs -> In c l ->
  Seq.first_loop l (cs ++ c :: cs') = Seq.first_find l c /\
  exists i, Seq.first_find l c = Ok (Some i).
Proof.
  intros Hcs Hin. rewrite (first_loop_skip _ _ _ Hcs). simpl.
  destruct (first_find_cases l c) as [[Hnot _] | (pre & post & _ & _ & Hf)];
    [contradiction |].
  rewrite Hf. simpl. split; [reflexivity | eexists; reflexivity].
Qed.

Lemma first_loop_miss (l xs : list string) :
  Forall (fun c => ~ In c l) xs -> Seq.first_loop l xs = Ok None.
Proof.
  intros Hall. rewrite <- (app_nil_r xs).
  rewrite (first_loop_skip _ _ _ Hall). reflexivity.
Qed.

End ExactSearch.

(** X1.  [first] with a single string yields the position of the first
    element equal to it, and the absent value exactly when no element
    equals it. *)
Theorem first_single_is_first_occurrence (l : list string) (x : string)
    (i : nat) :
  (Seq.first l (Str x) = Ok (Some i) <->
   exists pre post, l = pre ++ x :: post /\ length pre = i /\ ~ In x pre) /\
  (Seq.first l (Str x) = Ok None <-> ~ In x l).
Proof.
  simpl. split; split.
  - intros Hf.
    destruct (first_find_cases l x)
      as [[_ Hn] | (pre & post & Hl & Hpre & Hs)].
    + rewrite Hn in Hf. discriminate.
    + rewrite Hs in Hf. injection Hf as <-.
      exists pre, post. repeat split; assumption.
  - intros (pre & post & -> & <- & Hpre).
    apply first_find_present. exact Hpre.
  - intros Hf Hin.
    destruct (first_find_cases l x)
      as [[Hnot _] | (pre & post & _ & _ & Hs)]; [contradiction |].
    rewrite Hs in Hf. discriminate.
  - apply first_find_absent.
Qed.

(** X2.  [first] with a list of candidates yields the first-occurrence
    index of the first candidate that occurs at all (whatever the
    positions of later candidates), and the absent value exactly when no
    candidate occurs. *)
Theorem first_candidates_in_order (l xs : list string) (i : nat) :
  (Seq.first l (Coll xs) = Ok (Some i) <->
   exists cs c cs',
     xs = cs ++ c :: cs' /\
     Forall (fun c' => ~ In c' l) cs /\
     Seq.first l (Str c) = Ok (Some i)) /\
  (Seq.first l (Coll xs) = Ok None <-> Forall (fun c => ~ In c l) xs).
Proof.
  simpl. split; split.
  - intros Hf.
    destruct (split_first_candidate l xs)
      as [Hall | (cs & c & cs' & -> & Hcs & Hin)].
    + rewrite (first_loop_miss _ _ Hall) in Hf. discriminate.
    + destruct (first_loop_hit l cs cs' c Hcs Hin) as [Heq _].
      exists cs, c, cs'. repeat split; [exact Hcs |]. congruence.
  - intros (cs & c & cs' & -> & Hcs & Hc).
    rewrite (first_loop_skip _ _ _ Hcs). simpl. rewrite Hc. reflexivity.
  - intros Hf.
    destruct (split_first_candidate l xs)
      as [Hall | (cs & c & cs' & -> & Hcs & Hin)]; [exact Hall |].
    destruct (first_loop_hit l cs cs' c Hcs Hin) as [Heq [j Hj]].
    congruence.
  - apply first_loop_miss.
Qed.

(** X3.  [contains] never raises; it is true for a single string exactly
    when some element equals it, and for a list of candidates exactly
    when some candidate equals some element. *)
Theorem contains_iff_member (l : list string) (q : query) :
  exists b,
    Seq.contains l q = Ok b /\
    (b = true <->
     match q with
     | Str x => In x l
     | Coll xs => exists c, In c xs /\ In c l
     end).
Proof.
  unfold Seq.contains, Seq.__contains__. destruct q as [x | xs]; simpl.
  - destruct (first_find_cases l x)
      as [[Hnot ->] | (pre & post & Hl & _ & ->)]; simpl.
    + exists false. split; [reflexivity |].
      split; [discriminate | contradiction].
    + exists true. split; [reflexivity |].
      split; [intros _ | reflexivity].
      rewrite Hl. apply in_or_app. right. left. reflexivity.
  - destruct (split_first_candidate l xs)
      as [Hall | (cs & c & cs' & Hxs & Hcs & Hin)].
    + rewrite (first_loop_miss _ _ Hall). simpl.
      exists false. split; [reflexivity |].
      split; [discriminate |].
      intros (c & Hc & Hin). rewrite List.Forall_forall in Hall.
      exfalso. exact (Hall c Hc Hin).
    + subst xs. destruct (first_loop_hit l cs cs' c Hcs Hin) as [-> [j ->]].
      simpl. exists true. split; [reflexivity |].
      split; [intros _ | reflexivity].
      exists c. split; [| exact Hin].
      apply in_or_app. right. left. reflexivity.
Qed.

(** ** Substring search: [first_with], [first_without], [get_with] *)

(** [first_with] and [first_without] scan with the same loop and differ in
    the test; the facts about the loop are proved once, for any test [p]
    and any scan that unfolds as the loop does. *)
Section ScanFacts.

Variable p : string -> bool.
Variable scan : list string -> list string -> result (option nat).

Hypothesis scan_unfold : forall all rest,
  scan all rest =
  match rest with
  | [] => Ok None
  | arg :: rest' =>
      if p arg then let! i := index all arg in Ok (Some i)
      else scan all rest'
  end.

Lemma split_first_satisfying (l : list string) :
  Forall (fun b => p b = false) l \/
  exists mid a post,
    l = mid ++ a :: post /\ Forall (fun b => p b = false) mid /\ p a = true.
Proof.
  induction l as [| b l IH]; [left; constructor |].
  destruct (p b) eqn:Hb.
  - right. exists [], b, l. repeat split; [constructor | exact Hb].
  - destruct IH as [Hall | (mid & a & post & -> & Hmid & Ha)].
    + left. constructor; assumption.
    + right. exists (b :: mid), a, post.
      repeat split; [constructor; assumption | exact Ha].
Qed.

Lemma scan_miss (all rest : list string) :
  Forall (fun b => p b = false) rest -> scan all rest = Ok None.
Proof.
  induction 1 as [| arg rest Harg _ IH]; rewrite scan_unfold;
    [reflexivity |].
  rewrite Harg. exact IH.
Qed.

(** The index reported through [self.all.index(arg)] is the position the
    loop stopped at, also when equal elements are repeated: no earlier
    element can equal [arg], since none of them passes the test. *)
Lemma scan_hit (mid post : list string) (a : string) :
  Forall (fun b => p b = false) mid -> p a = true ->
  forall pre, Forall (fun b => p b = false) pre ->
  scan (pre ++ mid ++ a :: post) (mid ++ a :: post) =
  Ok (Some (length (pre ++ mid))).
Proof.
  intros Hmid Ha. induction Hmid as [| b mid Hb _ IH]; intros pre Hpre.
  - simpl. rewrite scan_unfold, Ha, app_nil_r.
    rewrite index_app_fresh; [reflexivity |].
    intros Hin. rewrite List.Forall_forall in Hpre.
    specialize (Hpre a Hin). congruence.
  - simpl. rewrite scan_unfold, Hb.
    assert (Hpre' : Forall (fun b => p b = false) (pre ++ [b])).
    { apply Forall_app. split; [exact Hpre |].
      apply Forall_cons. split; [exact Hb | apply Forall_nil_2]. }
    specialize (IH (pre ++ [b]) Hpre').
    rewrite <- !app_assoc in IH. simpl in IH.
    rewrite IH. reflexivity.
Qed.

Lemma scan_cases (l : list string) :
  (Forall (fun b => p b = false) l /\ scan l l = Ok None) \/
  (exists mid a post,
     l = mid ++ a :: post /\ Forall (fun b => p b = false) mid /\
     p a = true /\ scan l l = Ok (Some (length mid))).
Proof.
  destruct (split_first_satisfying l)
    as [Hall | (mid & a & post & -> & Hmid & Ha)].
  - left. split; [exact Hall | apply scan_miss; exact Hall].
  - right. exists mid, a, post. repeat split; try assumption.
    apply (scan_hit mid post a Hmid Ha [] (Forall_nil_2 _)).
Qed.

End ScanFacts.

Section SubstringSearch.

Lemma first_with_find_cases (l : list string) (x : string) :
  (Forall (fun b => str_in x b = false) l /\
   Seq.first_with_find l x = Ok None) \/
  (exists mid a post,
     l = mid ++ a :: post /\ Forall (fun b => str_in x b = false) mid /\
     str_in x a = true /\
     Seq.first_with_find l x = Ok (Some (length mid))).
Proof.
  unfold Seq.first_with_find.
  destruct (scan_cases (str_in x) (fun all rest => Seq.first_with_scan all rest x)
              (fun all rest => ltac:(destruct rest; reflexivity)) l)
    as [[Hall ->] | (mid & a & post & Hl & Hmid & Ha & ->)].
  - left. split; [exact Hall | reflexivity].
  - right. exists mid, a, post. repeat split; assumption.
Qed.

Lemma first_without_find_cases (l : list string) (x : string) :
  (Forall (fun b => str_in x b = true) l /\
   Seq.first_without_find l x = Ok None) \/
  (exists mid a post,
     l = mid ++ a :: post /\ Forall (fun b => str_in x b = true) mid /\
     str_in x a = false /\
     Seq.first_without_find l x = Ok (Some (length mid))).
Proof.
  assert (Hconv : forall m : list string,
            Forall (fun b => negb (str_in x b) = false) m ->
            Forall (fun b => str_in x b = true) m).
  { intros m Hm. eapply List.Forall_impl; [| exact Hm].
    intros b Hb. apply negb_false_iff. exact Hb. }
  unfold Seq.first_without_find.
  destruct (scan_cases (fun b => negb (str_in x b))
              (fun all rest => Seq.first_without_scan all rest x)
              (fun all rest => ltac:(destruct rest; reflexivity)) l)
    as [[Hall ->] | (mid & a & post & Hl & Hmid & Ha & ->)].
  - left. split; [apply Hconv; exact Hall | reflexivity].
  - right. exists mid, a, post.
    split; [exact Hl |]. split; [apply Hconv; exact Hmid |].
    split; [apply negb_true_iff; exact Ha | reflexivity].
Qed.

Lemma first_with_find_hit (mid post : list string) (a x : string) :
  Forall (fun b => str_in x b = false) mid -> str_in x a = true ->
  Seq.first_with_find (mid ++ a :: post) x = Ok (Some (length mid)).
Proof.
  intros Hmid Ha. unfold Seq.first_with_find.
  pose proof (scan_hit (str_in x)
                (fun all rest => Seq.first_with_scan all rest x)
                (fun all rest => ltac:(destruct rest; reflexivity))
                mid post a Hmid Ha [] (Forall_nil_2 _)) as Hs.
  cbn [app] in Hs. rewrite Hs. reflexivity.
Qed.

Lemma first_without_find_hit (mid post : list string) (a x : string) :
  Forall (fun b => str_in x b = true) mid -> str_in x a = false ->
  Seq.first_without_find (mid ++ a :: post) x = Ok (Some (length mid)).
Proof.
  intros Hmid Ha. unfold Seq.first_without_find.
  assert (Hmid' : Forall (fun b => negb (str_in x b) = false) mid).
  { eapply List.Forall_impl; [| exact Hmid].
    intros b Hb. simpl. rewrite Hb. reflexivity. }
  assert (Ha' : negb (str_in x a) = true) by (rewrite Ha; reflexivity).
  pose proof (scan_hit (fun b => negb (str_in x b))
                (fun all rest => Seq.first_without_scan all rest x)
                (fun all rest => ltac:(destruct rest; reflexivity))
                mid post a Hmid' Ha' [] (Forall_nil_2 _)) as Hs.
  cbn [app] in Hs. rewrite Hs. reflexivity.
Qed.

End SubstringSearch.

(** X4.  [first_with] with a single string yields the position of the
    first element that contains it (also when that element is repeated
    later in the list), and the absent value exactly when no element
    contains it. *)
Theorem first_with_single_is_first_containing (l : list string)
    (x : string) (i : nat) :
  (Seq.first_with l (Str x) = Ok (Some i) <->
   exists mid a post,
     l = mid ++ a :: post /\ length mid = i /\
     Forall (fun b => str_in x b = false) mid /\ str_in x a = true) /\
  (Seq.first_with l (Str x) = Ok None <->
   Forall (fun b => str_in x b = false) l).
Proof.
  simpl. split; split.
  - intros Hf.
    destruct (first_with_find_cases l x)
      as [[_ Hn] | (mid & a & post & Hl & Hmid & Ha & Hs)].
    + rewrite Hn in Hf. discriminate.
    + rewrite Hs in Hf. injection Hf as <-.
      exists mid, a, post. repeat split; assumption.
  - intros (mid & a & post & -> & <- & Hmid & Ha).
    apply first_with_find_hit; assumption.
  - intros Hf.
    destruct (first_with_find_cases l x)
      as [[Hall _] | (mid & a & post & _ & _ & _ & Hs)]; [exact Hall |].
    rewrite Hs in Hf. discriminate.
  - intros Hall.
    destruct (first_with_find_cases l x)
      as [[_ Hn] | (mid & a & post & Hl & _ & Ha & _)]; [exact Hn |].
    subst l. apply Forall_app in Hall. destruct Hall as [_ Hall].
    apply Forall_cons in Hall. destruct Hall as [Hna _]. congruence.
Qed.

(** X5.  [first_without] with a single string yields the position of the
    first element that does not contain it, and the absent value exactly
    when every element contains it (so always on the empty list). *)
Theorem first_without_single_is_first_not_containing (l : list string)
    (x : string) (i : nat) :
  (Seq.first_without l (Str x) = Ok (Some i) <->
   exists mid a post,
     l = mid ++ a :: post /\ length mid = i /\
     Forall (fun b => str_in x b = true) mid /\ str_in x a = false) /\
  (Seq.first_without l (Str x) = Ok None <->
   Forall (fun b => str_in x b = true) l).
Proof.
  simpl. split; split.
  - intros Hf.
    destruct (first_without_find_cases l x)
      as [[_ Hn] | (mid & a & post & Hl & Hmid & Ha & Hs)].
    + rewrite Hn in Hf. discriminate.
    + rewrite Hs in Hf. injection Hf as <-.
      exists mid, a, post. repeat split; assumption.
  - intros (mid & a & post & -> & <- & Hmid & Ha).
    apply first_without_find_hit; assumption.
  - intros Hf.
    destruct (first_without_find_cases l x)
      as [[Hall _] | (mid & a & post & _ & _ & _ & Hs)]; [exact Hall |].
    rewrite Hs in Hf. discriminate.
  - intros Hall.
    destruct (first_without_find_cases l x)
      as [[_ Hn] | (mid & a & post & Hl & _ & Ha & _)]; [exact Hn |].
    subst l. apply Forall_app in Hall. destruct Hall as [_ Hall].
    apply Forall_cons in Hall. destruct Hall as [Hna _]. congruence.
Qed.

(** X6.  On a hit, [get_with] with a single string returns the first
    element that contains it. *)
Theorem get_with_returns_first_containing (mid post : list string)
    (a x : string) :
  Forall (fun b => str_in x b = false) mid ->
  str_in x a = true ->
  Seq.get_with (mid ++ a :: post) (Str x) = Ok a.
Proof.
  intros Hmid Ha. unfold Seq.get_with.
  simpl. rewrite (first_with_find_hit mid post a x Hmid Ha). simpl. apply getitem_nonneg. apply list_lookup_middle.
  reflexivity.
Qed.

Lemma get_with_returns_first_containing_witness :
  Seq.get_with (["in"; "out"] ++ "-v" :: ["-vv"]) (Str "-") = Ok "-v".
Proof.
  apply (get_with_returns_first_containing ["in"; "out"] ["-vv"] "-v" "-").
  - repeat constructor.
  - reflexivity.
Defined.

(** The candidate loops of [first_with] and [first_without] are the same
    loop around different searches; its behaviour is proved once. *)
Section CandidateLoop.

Variable find : string -> result (option nat).
Variable loop : list string -> result (option nat).

Hypothesis find_total : forall c, exists v, find c = Ok v.

Hypothesis loop_unfold : forall xs,
  loop xs =
  match xs with
  | [] => Ok None
  | item :: xs' =>
      let! found := find item in
      if index_truthy found then Ok found else loop xs'
  end.

(** A candidate is passed over when its search misses or hits index 0. *)
Lemma passed_over_iff (c : string) (v : option nat) :
  find c = Ok v ->
  (index_truthy v = false <-> find c = Ok None \/ find c = Ok (Some O)).
Proof.
  intros Hv. rewrite Hv.
  destruct v as [[| n] |]; simpl; split; intros H;
    try reflexivity; try discriminate; try (left; reflexivity);
    try (right; reflexivity).
  destruct H as [H | H]; discriminate.
Qed.

Lemma loop_skip (cs rest : list string) :
  Forall (fun c0 => find c0 = Ok None \/ find c0 = Ok (Some O)) cs -> loop (cs ++ rest) = loop rest.
Proof.
  induction 1 as [| c cs Hc _ IH]; [reflexivity |].
  simpl. rewrite loop_unfold.
  destruct (find_total c) as [v Hv]. rewrite Hv. simpl.
  apply (passed_over_iff c v Hv) in Hc. rewrite Hc. exact IH.
Qed.

Lemma loop_split (xs : list string) :
  Forall (fun c0 => find c0 = Ok None \/ find c0 = Ok (Some O)) xs \/
  exists cs c cs' i,
    xs = cs ++ c :: cs' /\ Forall (fun c0 => find c0 = Ok None \/ find c0 = Ok (Some O)) cs /\
    find c = Ok (Some i) /\ (0 < i)%nat.
Proof.
  induction xs as [| c xs IH]; [left; constructor |].
  destruct (find_total c) as [v Hv].
  destruct (index_truthy v) eqn:Ht.
  - right. destruct v as [[| n] |]; try discriminate.
    exists [], c, xs, (S n). repeat split; [constructor | exact Hv | lia].
  - apply (passed_over_iff c v Hv) in Ht.
    destruct IH as [Hall | (cs & c0 & cs' & i & -> & Hcs & Hc0 & Hi)].
    + left. constructor; assumption.
    + right. exists (c :: cs), c0, cs', i.
      repeat split; [constructor; assumption | exact Hc0 | exact Hi].
Qed.

Lemma loop_hit (cs cs' : list string) (c : string) (i : nat) :
  Forall (fun c0 => find c0 = Ok None \/ find c0 = Ok (Some O)) cs -> find c = Ok (Some i) -> (0 < i)%nat ->
  loop (cs ++ c :: cs') = Ok (Some i).
Proof.
  intros Hcs Hc Hi. rewrite (loop_skip _ _ Hcs), loop_unfold, Hc. simpl.
  destruct i; [lia | reflexivity].
Qed.

Lemma loop_some_iff (xs : list string) (i : nat) :
  loop xs = Ok (Some i) <->
  exists cs c cs',
    xs = cs ++ c :: cs' /\ Forall (fun c0 => find c0 = Ok None \/ find c0 = Ok (Some O)) cs /\
    find c = Ok (Some i) /\ (0 < i)%nat.
Proof.
  split.
  - intros Hl.
    destruct (loop_split xs)
      as [Hall | (cs & c & cs' & j & -> & Hcs & Hc & Hj)].
    + rewrite <- (app_nil_r xs), (loop_skip _ _ Hall), loop_unfold in Hl.
      discriminate.
    + rewrite (loop_hit cs cs' c j Hcs Hc Hj) in Hl. injection Hl as <-.
      exists cs, c, cs'. repeat split; assumption.
  - intros (cs & c & cs' & -> & Hcs & Hc & Hi).
    apply loop_hit; assumption.
Qed.

End CandidateLoop.

Section CandidateSearch.

Lemma first_without_find_total (l : list string) (x : string) :
  exists v, Seq.first_without_find l x = Ok v.
Proof.
  destruct (first_without_find_cases l x)
    as [[_ ->] | (mid & a & post & _ & _ & _ & ->)]; eexists; reflexivity.
Qed.

End CandidateSearch.

(** X7.  With a list of candidates, [first_with] and [first_without] pass
    over every candidate whose search misses or hits index 0, and return
    the index found for the first remaining candidate; the index they
    return is therefore never 0. *)
Theorem candidate_search_passes_over_index_zero (l xs : list string)
    (i : nat) :
  (Seq.first_with l (Coll xs) = Ok (Some i) <->
   exists cs c cs',
     xs = cs ++ c :: cs' /\
     Forall (fun c' => Seq.first_with l (Str c') = Ok None \/
                       Seq.first_with l (Str c') = Ok (Some O)) cs /\
     Seq.first_with l (Str c) = Ok (Some i) /\ (0 < i)%nat) /\
  (Seq.first_without l (Coll xs) = Ok (Some i) <->
   exists cs c cs',
     xs = cs ++ c :: cs' /\
     Forall (fun c' => Seq.first_without l (Str c') = Ok None \/
                       Seq.first_without l (Str c') = Ok (Some O)) cs /\
     Seq.first_without l (Str c) = Ok (Some i) /\ (0 < i)%nat).
Proof.
  split.
  - apply (loop_some_iff (Seq.first_with_find l) (Seq.first_with_loop l)
             (first_with_find_total l)
             (fun xs' => ltac:(destruct xs'; reflexivity))).
  - apply (loop_some_iff (Seq.first_without_find l)
             (Seq.first_without_loop l)
             (first_without_find_total l)
             (fun xs' => ltac:(destruct xs'; reflexivity))).
Qed.

(** ** Positional accessors: [has], [last], [value_after], [contains_at],
    [pop] *)

Section AccessorFacts.

(** The three cases of a list subscript by an integer. *)
Lemma getitem_cases (l : list string) (i : Z) :
  let n := Z.of_nat (length l) in
  (- n <= i < n /\ exists tok, getitem l i = Ok tok /\ In tok l) \/
  ((i < - n \/ n <= i) /\ getitem l i = Raise IndexError).
Proof.
  intros n. subst n.
  destruct (Z_lt_ge_dec i (- Z.of_nat (length l))) as [Hlo | Hlo].
  { right. split; [lia | apply getitem_out_of_range; lia]. }
  destruct (Z_lt_ge_dec i (Z.of_nat (length l))) as [Hhi | Hhi].
  2: { right. split; [lia | apply getitem_out_of_range; lia]. }
  left. split; [lia |].
  destruct (Z_lt_ge_dec i 0) as [Hneg | Hpos].
  - destruct (lookup_lt_is_Some_2 l (Z.to_nat (i + Z.of_nat (length l))))
      as [tok Htok]; [lia |].
    exists tok. split; [apply getitem_negative; [lia | lia | exact Htok] |].
    apply list_elem_of_In. eapply list_elem_of_lookup_2. exact Htok.
  - destruct (lookup_lt_is_Some_2 l (Z.to_nat i)) as [tok Htok]; [lia |].
    exists tok. split.
    + rewrite <- (Z2Nat.id i) by lia. apply getitem_nonneg. exact Htok.
    + apply list_elem_of_In. eapply list_elem_of_lookup_2. exact Htok.
Qed.

Lemma getitem_last (l : list string) (a : string) :
  getitem (l ++ [a]) (-1) = Ok a.
Proof.
  apply getitem_negative; rewrite ?length_app; simpl; [lia | lia |].
  replace (Z.to_nat (-1 + Z.of_nat (length l + 1))) with (length l) by lia.
  apply list_lookup_middle. reflexivity.
Qed.

Lemma prefix_refl (s : string) : String.prefix s s = true.
Proof.
  induction s as [| c s IH]; simpl; [reflexivity |].
  destruct (Ascii.ascii_dec c c) as [_ | Hne]; [exact IH | contradiction].
Qed.

(** A string contains itself. *)
Lemma str_in_refl (s : string) : str_in s s = true.
Proof.
  destruct s as [| c s]; [reflexivity |].
  cbn [str_in]. rewrite prefix_refl. reflexivity.
Qed.

End AccessorFacts.

(** X8.  [has] never raises; [has(i)] is true exactly for
    [-length <= i < length], which is exactly when [get(i)] yields a
    token. *)
Theorem has_iff_get_yields_token (l : list string) (i : Z) :
  exists b,
    Seq.has l i = Ok b /\
    (b = true <-> - Z.of_nat (length l) <= i < Z.of_nat (length l)) /\
    (b = true <-> exists tok, Seq.get l i = Ok (Some tok)).
Proof.
  unfold Seq.has, Seq.get.
  destruct (getitem_cases l i) as [[Hin (tok & -> & _)] | [Hout ->]]; simpl.
  - exists true. repeat split; try lia. intros _. exists tok. reflexivity.
  - exists false. repeat split; try discriminate; try lia.
    intros [tok Htok]. discriminate.
Qed.

(** X9.  [last] is the absent value on the empty list and the final
    element otherwise. *)
Theorem last_is_final_element :
  Seq.last [] = Ok None /\
  forall (l : list string) (a : string), Seq.last (l ++ [a]) = Ok (Some a).
Proof.
  split; [reflexivity |].
  intros l a. unfold Seq.last. rewrite getitem_last. reflexivity.
Qed.

(** X10.  [value_after] with a string yields the element that follows its
    first exact occurrence; it yields the absent value when that
    occurrence is the last element, when the string does not occur, and
    always when it is given a list of candidates. *)
Theorem value_after_first_occurrence (pre post : list string)
    (x y : string) :
  ~ In x pre ->
  Seq.value_after (pre ++ x :: y :: post) (Str x) = Ok (Some y) /\
  Seq.value_after (pre ++ [x]) (Str x) = Ok None /\
  Seq.value_after pre (Str x) = Ok None /\
  (forall xs, Seq.value_after (pre ++ x :: y :: post) (Coll xs) = Ok None).
Proof.
  intros Hnot. unfold Seq.value_after. simpl. repeat split.
  - rewrite (index_app_fresh _ _ _ Hnot).
    replace (Z.of_nat (length pre) + 1) with (Z.of_nat (S (length pre)))
      by lia.
    rewrite (getitem_nonneg _ _ y); [reflexivity |].
    change (pre ++ x :: y :: post) with (pre ++ [x] ++ y :: post).
    rewrite app_assoc.
    replace (S (length pre)) with (length (pre ++ [x]))
      by (rewrite length_app; simpl; lia).
    apply list_lookup_middle. reflexivity.
  - rewrite (index_app_fresh _ _ _ Hnot).
    rewrite getitem_out_of_range; [reflexivity |].
    rewrite length_app. simpl. lia.
  - rewrite (index_absent _ _ Hnot). reflexivity.
Qed.

Lemma value_after_first_occurrence_witness :
  Seq.value_after (["run"] ++ "-f" :: "out.txt" :: ["-f"; "x"]) (Str "-f") =
    Ok (Some "out.txt") /\
  Seq.value_after (["run"] ++ ["-f"]) (Str "-f") = Ok None /\
  Seq.value_after ["run"] (Str "-f") = Ok None /\
  (forall xs,
     Seq.value_after (["run"] ++ "-f" :: "out.txt" :: ["-f"; "x"]) (Coll xs) =
       Ok None).
Proof.
  apply (value_after_first_occurrence ["run"] ["-f"; "x"] "-f" "out.txt").
  simpl. intros [H | []]. discriminate.
Defined.

(** X11.  [contains_at] never raises.  With a string it tests whether the
    element at the index (negative indices counting from the end) contains
    the string, and gives false for an index outside
    [-length <= i < length].  With a non-empty list of candidates it gives
    the answer for the first candidate alone; with an empty list it
    returns [None]. *)
Theorem contains_at_first_candidate_only (l : list string) (i : Z)
    (s c : string) (cs : list string) :
  let n := Z.of_nat (length l) in
  (forall k tok,
     l !! k = Some tok -> i = Z.of_nat k \/ i = Z.of_nat k - n ->
     Seq.contains_at l (Str s) i = Ok (Some (str_in s tok))) /\
  (i < - n \/ n <= i -> Seq.contains_at l (Str s) i = Ok (Some false)) /\
  Seq.contains_at l (Coll (c :: cs)) i = Seq.contains_at l (Str c) i /\
  Seq.contains_at l (Coll []) i = Ok None.
Proof.
  intros n. subst n. split; [| split; [| split; [| reflexivity]]].
  - intros k tok Hk Hi. pose proof (lookup_lt_Some _ _ _ Hk) as Hlt.
    unfold Seq.contains_at.
    destruct Hi as [-> | ->].
    + rewrite (getitem_nonneg _ _ _ Hk). reflexivity.
    + rewrite (getitem_negative l _ tok); [reflexivity | lia | lia |].
      replace (Z.of_nat k - Z.of_nat (length l) + Z.of_nat (length l))
        with (Z.of_nat k) by lia.
      rewrite Nat2Z.id. exact Hk.
  - intros Hout. unfold Seq.contains_at.
    rewrite (getitem_out_of_range _ _ Hout). reflexivity.
  - unfold Seq.contains_at.
    destruct (getitem l i) as [a | e]; simpl; [| reflexivity].
    destruct (str_in c a) eqn:Hc; [reflexivity |].
    destruct (String.eqb_spec c a) as [-> | _]; [| reflexivity].
    rewrite str_in_refl in Hc. discriminate.
Qed.

Lemma contains_at_first_candidate_only_witness :
  Seq.contains_at ["run"; "--out=x"] (Str "out") 1 = Ok (Some true) /\
  Seq.contains_at ["run"; "--out=x"] (Str "out") (-2) = Ok (Some false) /\
  Seq.contains_at ["run"; "--out=x"] (Str "out") 2 = Ok (Some false).
Proof.
  split; [| split].
  - apply (proj1 (contains_at_first_candidate_only
                    ["run"; "--out=x"] 1 "out" "" []) 1%nat "--out=x");
      [reflexivity | left; reflexivity].
  - apply (proj1 (contains_at_first_candidate_only
                    ["run"; "--out=x"] (-2) "out" "" []) 0%nat "run");
      [reflexivity | right; reflexivity].
  - apply (proj1 (proj2 (contains_at_first_candidate_only
                           ["run"; "--out=x"] 2 "out" "" []))).
    right. simpl. lia.
Defined.

Section PopFacts.



(** A search that hits reports a position inside the list. *)
Lemma first_in_range (cur : list string) (q : query) :
  Seq.first cur q = Ok None \/
  exists i x, Seq.first cur q = Ok (Some i) /\ cur !! i = Some x.
Proof.
  assert (Hone : forall c,
            Seq.first_find cur c = Ok None \/
            exists i x, Seq.first_find cur c = Ok (Some i) /\
                        cur !! i = Some x).
  { intros c.
    destruct (first_find_cases cur c)
      as [[_ Hn] | (pre & post & Hl & _ & Hs)]; [left; exact Hn |].
    right. exists (length pre), c. split; [exact Hs |].
    rewrite Hl. apply list_lookup_middle. reflexivity. }
  destruct q as [s | xs]; simpl; [apply Hone |].
  destruct (split_first_candidate cur xs)
    as [Hall | (cs & c & cs' & -> & Hcs & Hin)].
  - left. apply first_loop_miss. exact Hall.
  - destruct (first_loop_hit cur cs cs' c Hcs Hin) as [-> _]. apply Hone.
Qed.

(** One [_remove] never raises and deletes at most one element. *)
Lemma _remove_deletes_at_most_one (cur : list string) (q : query) :
  exists l',
    Seq._remove cur q = Ok l' /\ sublist l' cur /\
    (length cur <= S (length l'))%nat /\
    (Seq.first cur q = Ok None -> l' = cur).
Proof.
  unfold Seq._remove.
  destruct (first_in_range cur q) as [-> | (i & x & -> & Hi)]; simpl.
  - exists cur. repeat split; [reflexivity | lia].
  - rewrite (pop_at _ _ _ Hi). simpl. exists (delete i cur).
    repeat split.
    + apply sublist_delete.
    + rewrite length_delete by (exists x; exact Hi). lia.
    + discriminate.
Qed.

Lemma remove_fold_deletes (q : query) (items cur : list string) :
  exists l',
    fold_left (fun acc _item => let! c := acc in Seq._remove c q)
              items (Ok cur) = Ok l' /\
    sublist l' cur /\
    (length cur <= length items + length l')%nat /\
    (Seq.first cur q = Ok None -> l' = cur).
Proof.
  revert cur. induction items as [| item items IH]; intros cur; simpl.
  - exists cur. repeat split; [reflexivity | lia].
  - destruct (_remove_deletes_at_most_one cur q)
      as (l1 & -> & Hsub1 & Hlen1 & Hsame1).
    destruct (IH l1) as (l' & Hf & Hsub & Hlen & Hsame).
    exists l'. split; [exact Hf |]. split; [| split].
    + etransitivity; eassumption.
    + lia.
    + intros Hn. specialize (Hsame1 Hn). subst l1. apply Hsame. exact Hn.
Qed.

End PopFacts.



(** X13.  [remove] with a single string deletes its first occurrence and
    nothing else, so later duplicates stay; when the string does not
    occur the contents are unchanged. *)
Theorem remove_deletes_first_occurrence (self : Clint.Args)
    (h : Clint.store) (pre post : list string) (x : string) :
  ~ In x pre ->
  (Clint.all self h = pre ++ x :: post ->
   exists h', Clint.remove self (Str x) h = Ok h' /\
              Clint.all self h' = pre ++ post) /\
  (Clint.all self h = pre ->
   exists h', Clint.remove self (Str x) h = Ok h' /\
              Clint.all self h' = pre).
Proof.
  intros Hnot. split; intros Hall.
  - exists (Clint.assign (Clint._args self) (pre ++ post) h).
    unfold Clint.remove. rewrite Hall. simpl. unfold Seq._remove. simpl.
    rewrite (first_find_present _ _ _ Hnot). simpl.
    rewrite (pop_at _ _ x) by (apply list_lookup_middle; reflexivity).
    simpl. rewrite delete_middle.
    split; [reflexivity | apply deref_assign].
  - exists (Clint.assign (Clint._args self) pre h).
    unfold Clint.remove. rewrite Hall. simpl. unfold Seq._remove. simpl.
    rewrite (first_find_absent _ _ Hnot). simpl.
    split; [reflexivity | apply deref_assign].
Qed.

Lemma remove_deletes_first_occurrence_witness :
  let a := fst (Clint.construct ["prog"] ["a"; "-v"; "b"; "-v"] false
                  Clint.empty_store) in
  let h := snd (Clint.construct ["prog"] ["a"; "-v"; "b"; "-v"] false
                  Clint.empty_store) in
  (exists h', Clint.remove a (Str "-v") h = Ok h' /\
              Clint.all a h' = ["a"] ++ ["b"; "-v"]) /\
  (exists h', Clint.remove a (Str "-q") h = Ok h' /\
              Clint.all a h' = ["a"; "-v"; "b"; "-v"]).
Proof.
  split.
  2: { apply (proj2 (remove_deletes_first_occurrence
                  (fst (Clint.construct ["prog"] ["a"; "-v"; "b"; "-v"]
                          false Clint.empty_store))
                  (snd (Clint.construct ["prog"] ["a"; "-v"; "b"; "-v"]
                          false Clint.empty_store))
                  ["a"; "-v"; "b"; "-v"] [] "-q"
                  ltac:(simpl; intros [H | [H | [H | [H | []]]]];
                        discriminate))).
       reflexivity. }
  apply (proj1 (remove_deletes_first_occurrence
                  (fst (Clint.construct ["prog"] ["a"; "-v"; "b"; "-v"]
                          false Clint.empty_store))
                  (snd (Clint.construct ["prog"] ["a"; "-v"; "b"; "-v"]
                          false Clint.empty_store))
                  ["a"] ["b"; "-v"] "-v"
                  ltac:(simpl; intros [H | []]; discriminate))).
  reflexivity.
Defined.

(** X14.  [remove] never raises, whatever it is given.  It only deletes
    elements (what is left is a subsequence of the contents, in order), at
    most one for a single string and at most one per candidate for a
    list; and when nothing it searches for occurs, the contents are
    unchanged. *)
Theorem remove_only_deletes (l : list string) (q : query) :
  exists l',
    Seq.remove l q = Ok l' /\
    sublist l' l /\
    (length l <=
     match q with Str _ => 1 | Coll xs => length xs end + length l')%nat /\
    (Seq.first l q = Ok None -> l' = l).
Proof.
  destruct q as [s | xs].
  - destruct (_remove_deletes_at_most_one l (Str s))
      as (l' & Hr & Hsub & Hlen & Hsame).
    exists l'. split; [exact Hr |]. split; [exact Hsub |].
    split; [simpl; lia | exact Hsame].
  - apply (remove_fold_deletes (Coll xs) xs l).
Qed.

(** ** Filters on any query, and the lists they return *)

Section FilterMembership.

Lemma all_with_loop_is_filter (q : query) (rest acc : list string) :
  Seq.all_with_loop q rest acc =
  acc ++ List.filter (Seq.all_with_keeps q) rest.
Proof.
  revert acc. induction rest as [| arg rest IH]; intros acc; simpl.
  - rewrite app_nil_r. reflexivity.
  - rewrite IH. destruct (Seq.all_with_keeps q arg); [| reflexivity].
    rewrite <- app_assoc. reflexivity.
Qed.

Lemma all_without_loop_is_filter (q : query) (rest acc : list string) :
  Seq.all_without_loop q rest acc =
  acc ++ List.filter (Seq.all_without_keeps q) rest.
Proof.
  revert acc. induction rest as [| arg rest IH]; intros acc; simpl.
  - rewrite app_nil_r. reflexivity.
  - rewrite IH. destruct (Seq.all_without_keeps q arg); [| reflexivity].
    rewrite <- app_assoc. reflexivity.
Qed.


Lemma filter_split_length (f : string -> bool) (l : list string) :
  (length (List.filter f l) +
   length (List.filter (fun a => negb (f a)) l) = length l)%nat.
Proof.
  induction l as [| a l IH]; simpl; [reflexivity |].
  destruct (f a); simpl; lia.
Qed.

(** Objects built by a filtering method hold a list allocated after every
    list already in the store, so older references are left alone. *)
Lemma derived_is_fresh (argv items : list string) (h : Clint.store)
    (r : Clint.loc) :
  (r < Clint.next h)%positive ->
  Clint._args (fst (Clint.derived argv items h)) <> r /\
  Clint.deref (snd (Clint.derived argv items h)) r = Clint.deref h r.
Proof.
  intros Hr.
  unfold Clint.derived, Clint.__init__, Clint.alloc, Clint.deref. simpl.
  rewrite lookup_insert_eq. simpl.
  destruct items as [| x items]; simpl.
  - split; [lia |].
    rewrite !lookup_insert_ne by lia. reflexivity.
  - split; [lia |].
    rewrite lookup_insert_ne by lia. reflexivity.
Qed.

(** Mutating one instance leaves the contents of every instance with a
    different list object as they are. *)
Lemma mutation_frame (n self : Clint.Args) (h : Clint.store) :
  Clint._args n <> Clint._args self ->
  (forall x, Clint.all self (Clint.list_append (Clint._args n) x h) =
             Clint.all self h) /\
  (forall i v h', Clint.pop n i h = Ok (v, h') ->
                  Clint.all self h' = Clint.all self h) /\
  (forall q h', Clint.remove n q h = Ok h' ->
                Clint.all self h' = Clint.all self h).
Proof.
  intros Hne. unfold Clint.all, Clint.all_ref. repeat split.
  - intros x. unfold Clint.list_append. apply deref_assign_other. exact Hne.
  - intros i v h'. unfold Clint.pop.
    destruct (Seq.pop_items _ i) as [r | e]; simpl; [| discriminate].
    intros Hp. injection Hp as _ <-. apply deref_assign_other. exact Hne.
  - intros q h'. unfold Clint.remove.
    destruct (Seq.remove _ q) as [l | e]; simpl; [| discriminate].
    intros Hp. injection Hp as <-. apply deref_assign_other. exact Hne.
Qed.

End FilterMembership.


(** X16.  For a single string, [all_with] and [all_without] split the
    list: their lengths add up to the length of the list, and no element
    is in both. *)
Theorem all_with_all_without_split (l : list string) (s : string) :
  (length (Seq.all_with l (Str s)) + length (Seq.all_without l (Str s)) =
   length l)%nat /\
  (forall a, In a (Seq.all_with l (Str s)) ->
             ~ In a (Seq.all_without l (Str s))).
Proof.
  unfold Seq.all_with, Seq.all_without.
  rewrite all_with_loop_is_filter, all_without_loop_is_filter. simpl.
  split; [apply (filter_split_length (str_in s)) |].
  intros a Hw Hwo. apply List.filter_In in Hw. apply List.filter_In in Hwo.
  destruct Hw as [_ Hw]. destruct Hwo as [_ Hwo].
  simpl in Hw, Hwo. rewrite Hw in Hwo. discriminate.
Qed.

(** X17.  The instances returned by [all_with] and [all_without] (hence
    [not_flags]) hold exactly the filtered elements in a list object of
    their own: appending to it, popping from it or removing from it
    leaves the contents of the source instance as they are. *)
Theorem filtered_instances_are_independent (argv : list string)
    (self : Clint.Args) (q : query) (h : Clint.store) (with_ : bool) :
  (Clint._args self < Clint.next h)%positive ->
  let r := if with_ then Clint.all_with argv self q h
           else Clint.all_without argv self q h in
  Clint.all (fst r) (snd r) =
    (if with_ then Seq.all_with (Clint.all self h) q
     else Seq.all_without (Clint.all self h) q) /\
  Clint._args (fst r) <> Clint._args self /\
  Clint.all self (snd r) = Clint.all self h /\
  (forall x, Clint.all self (Clint.list_append (Clint._args (fst r)) x (snd r))
             = Clint.all self h) /\
  (forall i v h', Clint.pop (fst r) i (snd r) = Ok (v, h') ->
                  Clint.all self h' = Clint.all self h) /\
  (forall x h', Clint.remove (fst r) x (snd r) = Ok h' ->
                Clint.all self h' = Clint.all self h).
Proof.
  intros Hwf r.
  assert (Hd : exists items,
            r = Clint.derived argv items h /\
            items = (if with_ then Seq.all_with (Clint.all self h) q
                     else Seq.all_without (Clint.all self h) q)).
  { subst r. destruct with_; eexists; split; reflexivity. }
  destruct Hd as (items & -> & <-).
  destruct (derived_is_fresh argv items h (Clint._args self) Hwf)
    as [Hne Hsame].
  destruct (mutation_frame (fst (Clint.derived argv items h)) self
              (snd (Clint.derived argv items h)) Hne) as (Ha & Hp & Hr).
  split; [apply all_derived |]. split; [exact Hne |].
  assert (Hs : Clint.all self (snd (Clint.derived argv items h)) =
               Clint.all self h) by exact Hsame.
  split; [exact Hs |]. split; [| split].
  - intros x. rewrite Ha. exact Hs.
  - intros i v h' Hpop. rewrite (Hp i v h' Hpop). exact Hs.
  - intros x h' Hrem. rewrite (Hr x h' Hrem). exact Hs.
Qed.

Lemma filtered_instances_are_independent_witness :
  let argv := ["prog"] in
  let a := fst (Clint.construct argv ["-a"; "b"] false Clint.empty_store) in
  let h := snd (Clint.construct argv ["-a"; "b"] false Clint.empty_store) in
  let r := Clint.all_without argv a (Str "-") h in
  Clint.all (fst r) (snd r) = Seq.all_without (Clint.all a h) (Str "-") /\
  Clint._args (fst r) <> Clint._args a /\
  Clint.all a (snd r) = Clint.all a h /\
  (forall x, Clint.all a (Clint.list_append (Clint._args (fst r)) x (snd r))
             = Clint.all a h) /\
  (forall i v h', Clint.pop (fst r) i (snd r) = Ok (v, h') ->
                  Clint.all a h' = Clint.all a h) /\
  (forall x h', Clint.remove (fst r) x (snd r) = Ok h' ->
                Clint.all a h' = Clint.all a h).
Proof.
  apply (filtered_instances_are_independent ["prog"]
           (fst (Clint.construct ["prog"] ["-a"; "b"] false
                   Clint.empty_store))
           (Str "-")
           (snd (Clint.construct ["prog"] ["-a"; "b"] false
                   Clint.empty_store))
           false).
  vm_compute. reflexivity.
Defined.

(** ** More on [grouped]: the sentinel group and the grouped tokens *)

Section GroupedTokens.

Import Grouped.

(** Leading non-flag tokens, read while no group is open, all go to the
    sentinel group. *)
Lemma grouped_loop_leading (ts rest : list string) :
  Forall (fun t => startswith t "-" = false) ts ->
  forall (d : odict) (v : list string),
    od_get d "_" = Some v ->
    exists d',
      grouped_loop (ts ++ rest) d None = grouped_loop rest d' None /\
      od_get d' "_" = Some (v ++ ts) /\
      od_keys d' = od_keys d.
Proof.
  induction 1 as [| t ts Ht _ IH]; intros d v Hv.
  - exists d. rewrite app_nil_r. repeat split. exact Hv.
  - cbn [app grouped_loop]. rewrite Ht.
    destruct (od_append_present d "_" t v Hv) as (d1 & -> & Hk1 & Hg1 & _).
    cbn [bind].
    destruct (IH d1 (v ++ [t]) Hg1) as (d' & Hloop & Hg & Hk).
    exists d'. rewrite <- app_assoc in Hg.
    split; [exact Hloop |]. split; [exact Hg | congruence].
Qed.

Lemma flag_is_not_sentinel (a : string) :
  startswith a "-" = true -> a <> "_".
Proof. intros Ha ->. discriminate. Qed.

(** Once a flag has been read, the sentinel group no longer changes. *)
Lemma sentinel_frozen (rest : list string) :
  forall (d : odict) (g : string),
    startswith g "-" = true ->
    loop_state_ok d (Some g) ->
    exists d',
      grouped_loop rest d (Some g) = Ok d' /\
      od_get d' "_" = od_get d "_".
Proof.
  induction rest as [| arg rest IH]; intros d g Hg Hok.
  - exists d. split; reflexivity.
  - cbn [grouped_loop]. destruct (startswith arg "-") eqn:Hflag.
    + destruct (IH (od_setdefault d arg []) arg Hflag
                  (loop_state_ok_flag d (Some g) arg Hok))
        as (d' & Hloop & Hs).
      exists d'. split; [exact Hloop |]. rewrite Hs.
      apply od_setdefault_get_other. apply flag_is_not_sentinel.
      exact Hflag.
    + destruct (loop_step_append d (Some g) arg Hok)
        as (k & v & d1 & Hstep & Hk & _ & _ & _ & Hoth & Hok1).
      rewrite Hstep. cbn [bind].
      destruct (IH d1 g Hg Hok1) as (d' & Hloop & Hs).
      exists d'. split; [exact Hloop |]. rewrite Hs.
      apply Hoth. rewrite Hk, (flag_truthy g Hg).
      intros Heq. symmetry in Heq. revert Heq.
      apply flag_is_not_sentinel. exact Hg.
Qed.

Lemma od_append_concat (d d' : odict) (k arg : string) :
  od_append d k arg = Ok d' ->
  Permutation (concat (map snd d')) (arg :: concat (map snd d)).
Proof.
  revert d'. induction d as [| [k0 v0] d IH]; simpl; intros d' Ha;
    [discriminate |].
  destruct (String.eqb k0 k).
  - injection Ha as <-. simpl. rewrite <- app_assoc. simpl.
    symmetry. apply Permutation_middle.
  - destruct (od_append d k arg) as [r |] eqn:Er; simpl in Ha;
      [| discriminate].
    injection Ha as <-. simpl.
    rewrite (IH r eq_refl). symmetry. apply Permutation_middle.
Qed.

Lemma od_setdefault_concat (d : odict) (k : string) :
  concat (map snd (od_setdefault d k [])) = concat (map snd d).
Proof.
  unfold od_setdefault. destruct (od_get d k); [reflexivity |].
  rewrite map_app, concat_app. simpl. rewrite app_nil_r. reflexivity.
Qed.

(** The loop adds every non-flag token it reads to one group, and nothing
    else. *)
Lemma grouped_loop_conserves (rest : list string) :
  forall (d : odict) (cur : option string),
    loop_state_ok d cur ->
    exists d',
      grouped_loop rest d cur = Ok d' /\
      Permutation (concat (map snd d'))
        (concat (map snd d) ++
         List.filter (fun a => negb (startswith a "-")) rest).
Proof.
  induction rest as [| arg rest IH]; intros d cur Hok.
  - exists d. simpl. rewrite app_nil_r. split; reflexivity.
  - cbn [grouped_loop List.filter].
    destruct (startswith arg "-") eqn:Hflag; simpl negb; cbv iota.
    + destruct (IH _ _ (loop_state_ok_flag d cur arg Hok))
        as (d' & Hloop & Hperm).
      exists d'. split; [exact Hloop |].
      rewrite od_setdefault_concat in Hperm. exact Hperm.
    + destruct (loop_step_append d cur arg Hok)
        as (k & v & d1 & Hstep & _ & _ & _ & _ & _ & Hok1).
      assert (Hp1 : Permutation (concat (map snd d1))
                      (arg :: concat (map snd d))).
      { destruct cur as [g |]; [destruct (str_truthy g) |];
          apply (od_append_concat _ _ _ _ Hstep). }
      rewrite Hstep. cbn [bind].
      destruct (IH d1 cur Hok1) as (d' & Hloop & Hperm).
      exists d'. split; [exact Hloop |].
      rewrite Hperm, Hp1. simpl. apply Permutation_middle.
Qed.

End GroupedTokens.

(** X18.  The sentinel group of [grouped] holds exactly the tokens that
    come before the first flag, in order: the leading non-flag tokens [ts]
    when the rest of the list is empty or starts with a flag. *)
Theorem grouped_sentinel_holds_leading_tokens (ts rest : list string) :
  Forall (fun t => startswith t "-" = false) ts ->
  (forall a, head rest = Some a -> startswith a "-" = true) ->
  exists d,
    Grouped.grouped (ts ++ rest) = Ok d /\
    Grouped.od_get d "_" = Some ts.
Proof.
  intros Hts Hrest. unfold Grouped.grouped.
  destruct (grouped_loop_leading ts rest Hts [("_", [])] [] eq_refl)
    as (d1 & -> & Hg1 & Hk1).
  destruct rest as [| f rest].
  - exists d1. split; [reflexivity | exact Hg1].
  - specialize (Hrest f eq_refl). cbn [Grouped.grouped_loop]. rewrite Hrest.
    assert (Hok1 : Grouped.loop_state_ok d1 None).
    { split; [eexists; exact Hg1 | discriminate]. }
    destruct (sentinel_frozen rest (Grouped.od_setdefault d1 f []) f Hrest
                (loop_state_ok_flag d1 None f Hok1)) as (d & Hloop & Hs).
    exists d. split; [exact Hloop |]. rewrite Hs.
    rewrite od_setdefault_get_other
      by (apply flag_is_not_sentinel; exact Hrest).
    exact Hg1.
Qed.

Lemma grouped_sentinel_holds_leading_tokens_witness :
  exists d,
    Grouped.grouped (["in"; "out"] ++ ["-v"; "x"; "-q"]) = Ok d /\
    Grouped.od_get d "_" = Some ["in"; "out"].
Proof.
  apply (grouped_sentinel_holds_leading_tokens ["in"; "out"]
           ["-v"; "x"; "-q"]).
  - repeat constructor.
  - intros a Ha. injection Ha as <-. reflexivity.
Defined.

(** X19.  [grouped] never raises, and its groups together hold exactly the
    non-flag tokens of the list, each as often as it occurs: no token is
    lost or duplicated, and no flag is stored as a value. *)
Theorem grouped_conserves_tokens (l : list string) :
  exists d,
    Grouped.grouped l = Ok d /\
    Permutation (concat (map snd d))
      (List.filter (fun a => negb (startswith a "-")) l).
Proof.
  destruct (grouped_loop_conserves l [("_", [])] None initial_state_ok)
    as (d & Hd & Hperm).
  exists d. split; [exact Hd | exact Hperm].
Qed.

Section NewFlag.

Import Grouped.

(** A flag [f] that is neither a key nor in [l1]: reading it after [l1]
    adds the key [f] at the end, and the tokens that follow form its
    group. *)
Lemma grouped_loop_new_flag (l1 ts : list string) (f : string) :
  startswith f "-" = true ->
  Forall (fun t => startswith t "-" = false) ts ->
  ~ In f l1 ->
  forall (d : odict) (cur : option string),
    loop_state_ok d cur ->
    od_get d f = None ->
    exists d1 d2,
      grouped_loop l1 d cur = Ok d1 /\
      grouped_loop (l1 ++ f :: ts) d cur = Ok d2 /\
      od_keys d2 = od_keys d1 ++ [f] /\
      od_get d1 f = None /\
      od_get d2 f = Some ts /\
      (forall k, k <> f -> od_get d2 k = od_get d1 k).
Proof.
  intros Hf Hts. induction l1 as [| arg l1 IH]; intros Hnot d cur Hok Hnone.
  - cbn [app grouped_loop]. rewrite Hf.
    assert (Hsd : od_setdefault d f [] = d ++ [(f, [])])
      by (unfold od_setdefault; rewrite Hnone; reflexivity).
    rewrite Hsd.
    assert (Hv : od_get (d ++ [(f, [])]) f = Some []).
    { rewrite od_get_app_fresh, Hnone, String.eqb_refl. reflexivity. }
    assert (Hs : is_Some (od_get (d ++ [(f, [])]) "_")).
    { rewrite <- Hsd. apply od_setdefault_keeps. exact (proj1 Hok). }
    destruct (grouped_loop_tokens ts (d ++ [(f, [])]) f [] Hts
                (flag_truthy f Hf) Hs Hv) as (d2 & Hloop & Hk & Hg & Ho).
    exists d, d2. split; [reflexivity |]. split; [exact Hloop |].
    split; [rewrite Hk; unfold od_keys; rewrite map_app; reflexivity |].
    split; [exact Hnone |]. split; [exact Hg |].
    intros k Hk'. rewrite (Ho k Hk'), od_get_app_fresh.
    destruct (od_get d k); [reflexivity |].
    destruct (String.eqb_spec f k); [congruence | reflexivity].
  - assert (Hne : arg <> f) by (intros ->; apply Hnot; left; reflexivity).
    assert (Hnot' : ~ In f l1) by (intros H; apply Hnot; right; exact H).
    cbn [app grouped_loop]. destruct (startswith arg "-") eqn:Hflag.
    + apply (IH Hnot');
        [apply loop_state_ok_flag with (cur := cur); exact Hok |].
      rewrite od_setdefault_get_other by exact Hne. exact Hnone.
    + destruct (loop_step_append d cur arg Hok)
        as (k & v & d1 & Hstep & _ & Hkv & _ & _ & Hoth & Hok1).
      rewrite Hstep. cbn [bind]. apply (IH Hnot' d1 cur Hok1).
      rewrite Hoth; [exact Hnone |]. intros ->. congruence.
Qed.

End NewFlag.

(** X20.  A flag that has not occurred before opens a new group at the end
    of the mapping: after the tokens [l1], a new flag [f] followed by the
    non-flag tokens [ts] adds the key [f] last, maps it to exactly [ts],
    and leaves every other group as it was. *)
Theorem grouped_new_flag_opens_group (l1 ts : list string) (f : string) :
  startswith f "-" = true ->
  ~ In f l1 ->
  Forall (fun t => startswith t "-" = false) ts ->
  exists d1 d2,
    Grouped.grouped l1 = Ok d1 /\
    Grouped.grouped (l1 ++ f :: ts) = Ok d2 /\
    Grouped.od_keys d2 = Grouped.od_keys d1 ++ [f] /\
    Grouped.od_get d1 f = None /\
    Grouped.od_get d2 f = Some ts /\
    (forall k, k <> f -> Grouped.od_get d2 k = Grouped.od_get d1 k).
Proof.
  intros Hf Hnot Hts.
  apply (grouped_loop_new_flag l1 ts f Hf Hts Hnot [("_", [])] None
           initial_state_ok).
  cbn [Grouped.od_get]. destruct (String.eqb_spec "_" f) as [<- | _];
    [discriminate | reflexivity].
Qed.

Lemma grouped_new_flag_opens_group_witness :
  exists d1 d2,
    Grouped.grouped ["x"; "-a"; "1"] = Ok d1 /\
    Grouped.grouped (["x"; "-a"; "1"] ++ "-b" :: ["2"; "3"]) = Ok d2 /\
    Grouped.od_keys d2 = Grouped.od_keys d1 ++ ["-b"] /\
    Grouped.od_get d1 "-b" = None /\
    Grouped.od_get d2 "-b" = Some ["2"; "3"] /\
    (forall k, k <> "-b" -> Grouped.od_get d2 k = Grouped.od_get d1 k).
Proof.
  apply (grouped_new_flag_opens_group ["x"; "-a"; "1"] ["2"; "3"] "-b").
  - reflexivity.
  - simpl. intros [H | [H | [H | []]]]; discriminate.
  - repeat constructor.
Defined.

(** ** [files] and [not_files] *)

Section FilesFacts.

Variable expand_path : string -> list string.
Variable path_exists : string -> bool.
Variable abspath : string -> string.





End FilesFacts.

(** ** [start_with] on any query *)

Section StartWithFacts.

Lemma start_with_loop_no_candidates (rest acc : list string) :
  Seq.start_with_loop (Coll []) rest acc = Ok acc.
Proof.
  revert acc. induction rest as [| arg rest IH]; intros acc; simpl;
    [reflexivity | apply IH].
Qed.

End StartWithFacts.

(** X22.  [start_with] with a single string keeps exactly the elements
    that start with it, in order.  With a list of candidates the inner
    test hands the whole list to [str.startswith]: the call raises
    [TypeError] as soon as both the argument list and the candidate list
    are non-empty, and yields the empty list otherwise. *)
Theorem start_with_prefix_filter (l cs : list string) (s a c : string) :
  Seq.start_with l (Str s) =
    Ok (List.filter (fun arg => startswith arg s) l) /\
  Seq.start_with l (Coll []) = Ok [] /\
  Seq.start_with [] (Coll (c :: cs)) = Ok [] /\
  Seq.start_with (a :: l) (Coll (c :: cs)) = Raise TypeError.
Proof.
  unfold Seq.start_with. repeat split.
  - rewrite start_with_loop_filter. reflexivity.
  - apply start_with_loop_no_candidates.
Qed.
